(** * The transactional identifier and SKU allocation layer of the item store

    A shallow embedding of the Firestore client of the tutorial server
    (package [db]: [NewClient], [startSKU], [getNext], [create], [AddItem],
    [GetItem], [GetItemBySKU], [ListItems], [UpdateItem], [DeleteItem])
    together with a sequential model of the document store it talks to, the
    GraphQL resolvers and the HTTP handlers that call the client, the
    in-memory double the tests put in its place, and the properties of the
    layer proved over that embedding.

    Conventions.
    - Go's [int] and Firestore's integers are 64-bit: they are [Z] with the
      wrap-around of [+] written out ([int_add]).
    - A Go [error] is [option error]: [None] is [nil].
    - [*model.Item] arguments are caller-owned records mutated in place: the
      functions that write through the pointer return the record as the
      caller sees it afterwards, also when they return an error.
    - The store is an external service.  Every call that reaches it takes an
      optional gRPC code: [None] when the store answers, [Some c] when the
      call itself fails with status [c].  A transaction also takes the
      attempts it loses to concurrent commits before the attempt that
      decides it.
    - The client's two collections, [c.data] and [c.util], are two
      collections of the store. *)

From Stdlib Require Import ZArith Lia.
From stdpp Require Import gmap strings list fin_maps sorting pretty.

Local Open Scope string_scope.
Local Open Scope Z_scope.

(** ** Machine integers *)

Definition max_int64 : Z := 2 ^ 63 - 1.
Definition min_int64 : Z := - 2 ^ 63.

Definition wrap64 (z : Z) : Z := (z + 2 ^ 63) mod 2 ^ 64 - 2 ^ 63.

(** Go's [a + b] on [int]. *)
Definition int_add (a b : Z) : Z := wrap64 (a + b).

(** [strconv.Itoa]. *)
Definition Itoa (z : Z) : string := pretty z.

(** ** Errors *)

(** [google.golang.org/grpc/codes]. *)
Inductive Code :=
| OK | Canceled | Unknown | InvalidArgument | DeadlineExceeded | NotFound
| AlreadyExists | PermissionDenied | ResourceExhausted | FailedPrecondition
| Aborted | OutOfRange | Unimplemented | Internal | Unavailable | DataLoss
| Unauthenticated.

#[global] Instance Code_eq_dec : EqDecision Code.
Proof. solve_decision. Defined.

(** Go error values: the package sentinel [ErrNotFound], a gRPC status
    error, an error made by [errors.New] or by [fmt.Errorf] without [%w],
    and an error made by [fmt.Errorf] with [%w] around another one. *)
Inductive error :=
| ErrNotFound
| StatusErr (c : Code)
| ErrorNew (msg : string)
| ErrorWrap (msg : string) (inner : error).

#[global] Instance error_eq_dec : EqDecision error.
Proof. solve_decision. Defined.

(** [status.Code(err)] for a non-nil error. *)
Definition status_Code (e : error) : Code :=
  match e with
  | StatusErr c => c
  | _ => Unknown
  end.

(** [errors.Is(err, target)]. *)
Fixpoint errors_Is (e target : error) : bool :=
  if decide (e = target) then true
  else match e with
       | ErrorWrap _ inner => errors_Is inner target
       | _ => false
       end.

Inductive result (A : Type) :=
| Ok (a : A)
| Err (e : error).
Arguments Ok {A} a.
Arguments Err {A} e.

(** ** Documents and the item record *)

(** Firestore field values (the kinds this layer can meet). *)
Inductive Value :=
| VNull
| VBool (b : bool)
| VInt (z : Z)
| VString (s : string).

#[global] Instance Value_eq_dec : EqDecision Value.
Proof. solve_decision. Defined.

(** A document is a finite map from field names to values. *)
Abbreviation Doc := (gmap string Value).
Abbreviation Collection := (gmap string (gmap string Value)).

(** [model.Item], with its [firestore] tags ["id"], ["name"], ["sku"]. *)
Record Item := { ID : string; Name : string; Sku : Z }.

#[global] Instance Item_eq_dec : EqDecision Item.
Proof. solve_decision. Defined.

Definition set_ID (i : Item) (id : string) : Item :=
  {| ID := id; Name := Name i; Sku := Sku i |}.
Definition set_Sku (i : Item) (n : Z) : Item :=
  {| ID := ID i; Name := Name i; Sku := n |}.

(** What the store writes for an [*Item]. *)
Definition encode (i : Item) : Doc :=
  <["id" := VString (ID i)]> (<["name" := VString (Name i)]> (<["sku" := VInt (Sku i)]> ∅)).

Definition errDecode : error := ErrorNew "firestore: cannot set type".

Definition decode_string (d : Doc) (k : string) : option string :=
  match d !! k with
  | None | Some VNull => Some EmptyString
  | Some (VString s) => Some s
  | Some _ => None
  end.

Definition decode_int (d : Doc) (k : string) : option Z :=
  match d !! k with
  | None | Some VNull => Some 0
  | Some (VInt z) => Some z
  | Some _ => None
  end.

(** [doc.DataTo(&i)] into a zero [Item]: a field of the document that the
    struct has must hold a value of the struct field's type; fields the
    struct does not have are ignored, fields the document does not have
    stay zero. *)
Definition DataTo (d : Doc) : result Item :=
  match decode_string d "id", decode_string d "name", decode_int d "sku" with
  | Some id, Some name, Some sku => Ok {| ID := id; Name := name; Sku := sku |}
  | _, _, _ => Err errDecode
  end.

(** [doc.DataAt(field)]. *)
Definition DataAt (d : Doc) (field : string) : result Value :=
  match d !! field with
  | Some v => Ok v
  | None => Err (ErrorNew ("firestore: no field " ++ field))
  end.

(** ** The store *)

(** The client's two collections: [c.data] holds the items, [c.util] the
    counter document. *)
Record Store := { data : Collection; util : Collection }.

Inductive Coll := Data | Util.

#[global] Instance Coll_eq_dec : EqDecision Coll.
Proof. solve_decision. Defined.

(** [*firestore.DocumentRef]: [c.data.Doc(id)] is [(Data, id)]. *)
Definition DocRef : Type := Coll * string.

Definition coll (s : Store) (c : Coll) : Collection :=
  match c with Data => data s | Util => util s end.

Definition get_doc (s : Store) (r : DocRef) : option Doc := coll s r.1 !! r.2.

Definition put_doc (s : Store) (r : DocRef) (d : Doc) : Store :=
  match r.1 with
  | Data => {| data := <[r.2 := d]> (data s); util := util s |}
  | Util => {| data := data s; util := <[r.2 := d]> (util s) |}
  end.

Definition skuDoc : string := "Next$SKU".
Definition nextField : string := "next".
Definition startSKU_const : Z := 1000.

(** ** Transactions *)

Inductive Write :=
| WCreate (r : DocRef) (d : Doc)
| WUpdate (r : DocRef) (path : string) (v : Value).

(** What a transaction did, in program order. *)
Inductive TxOp :=
| TxRead (r : DocRef)
| TxWrite (w : Write).

(** [*firestore.Transaction]: the snapshot it reads, whether its reads
    fail, and the log of its reads and staged writes. *)
Record Tx := { tx_snapshot : Store; tx_fault : option Code; tx_log : list TxOp }.

Definition begin (s : Store) (f : option Code) : Tx :=
  {| tx_snapshot := s; tx_fault := f; tx_log := [] |}.

Definition tx_record (tx : Tx) (op : TxOp) : Tx :=
  {| tx_snapshot := tx_snapshot tx; tx_fault := tx_fault tx;
     tx_log := tx_log tx ++ [op] |}.

Definition tx_writes (tx : Tx) : list Write :=
  omap (λ op, match op with TxWrite w => Some w | TxRead _ => None end) (tx_log tx).

Definition errReadAfterWrite : error :=
  ErrorNew "firestore: read after write in transaction".

(** [tx.Get(ref)]: a read through the transaction; the store refuses a read
    that comes after a write of the same transaction. *)
Definition tx_Get (tx : Tx) (r : DocRef) : Tx * result Doc :=
  match tx_writes tx with
  | _ :: _ => (tx, Err errReadAfterWrite)
  | [] =>
    let tx' := tx_record tx (TxRead r) in
    match tx_fault tx with
    | Some c => (tx', Err (StatusErr c))
    | None =>
      match get_doc (tx_snapshot tx) r with
      | Some d => (tx', Ok d)
      | None => (tx', Err (StatusErr NotFound))
      end
    end
  end.

(** [tx.Create(ref, data)] and [tx.Update(ref, [{Path, Value}])] stage a
    write; its precondition is checked when the transaction commits. *)
Definition tx_Create (tx : Tx) (r : DocRef) (d : Doc) : Tx * option error :=
  (tx_record tx (TxWrite (WCreate r d)), None).

Definition tx_Update (tx : Tx) (r : DocRef) (path : string) (v : Value) : Tx * option error :=
  (tx_record tx (TxWrite (WUpdate r path v)), None).

Definition apply_write (s : Store) (w : Write) : result Store :=
  match w with
  | WCreate r d =>
    match get_doc s r with
    | Some _ => Err (StatusErr AlreadyExists)
    | None => Ok (put_doc s r d)
    end
  | WUpdate r path v =>
    match get_doc s r with
    | Some d => Ok (put_doc s r (<[path := v]> d))
    | None => Err (StatusErr NotFound)
    end
  end.

(** Commit: all the staged writes, in order, or none of them. *)
Fixpoint apply_writes (s : Store) (ws : list Write) : result Store :=
  match ws with
  | [] => Ok s
  | w :: ws' =>
    match apply_write s w with
    | Ok s' => apply_writes s' ws'
    | Err e => Err e
    end
  end.

(** An attempt of a transaction whose commit the store rejected because a
    concurrent transaction committed first: the snapshot it read. *)
Record TxAttempt := { seen : Store; seen_fault : option Code }.

(** What the environment does to one [RunTransaction]: the attempts that
    lost to a concurrent commit and are re-executed by the store's client,
    then the faults of the last attempt's reads and of its commit. *)
Record TxEnv := {
  conflicts : list TxAttempt;
  get_fault : option Code;
  commit_fault : option Code
}.

Definition quiet : TxEnv :=
  {| conflicts := []; get_fault := None; commit_fault := None |}.

Section RunTransaction.
(** [H] is the program state outside the store that the body can write:
    what the closure captures by reference. *)
Context {H : Type}.
Variable body : H → Tx → H * Tx * option error.

(** The attempts that end in a conflict: the body ran to the end, its
    writes are dropped, and it is executed again.  A body that returns an
    error ends the transaction at once. *)
Fixpoint run_conflicts (cs : list TxAttempt) (h : H) : H * option error :=
  match cs with
  | [] => (h, None)
  | c :: cs' =>
    let '(h', _, r) := body h (begin (seen c) (seen_fault c)) in
    match r with
    | Some e => (h', Some e)
    | None => run_conflicts cs' h'
    end
  end.

(** [c.fs.RunTransaction(ctx, body)], with [s] the store at the last
    attempt. *)
Definition RunTransaction (env : TxEnv) (s : Store) (h : H) : H * Store * option error :=
  match run_conflicts (conflicts env) h with
  | (h1, Some e) => (h1, s, Some e)
  | (h1, None) =>
    let '(h2, tx, r) := body h1 (begin s (get_fault env)) in
    match r with
    | Some e => (h2, s, Some e)
    | None =>
      match commit_fault env with
      | Some c => (h2, s, Some (StatusErr c))
      | None =>
        match apply_writes s (tx_writes tx) with
        | Ok s' => (h2, s', None)
        | Err e => (h2, s, Some e)
        end
      end
    end
  end.
End RunTransaction.

(** ** The sequence manager *)

Definition seqRef : DocRef := (Util, skuDoc).

(** The body of the transaction of [Client.startSKU]. *)
Definition startSKU_body (_ : unit) (tx : Tx) : unit * Tx * option error :=
  let '(tx, r) := tx_Get tx seqRef in
  match r with
  | Err err =>
    if decide (status_Code err = NotFound) then
      let data := <[nextField := VInt startSKU_const]> (∅ : Doc) in
      let '(tx, cerr) := tx_Create tx seqRef data in
      match cerr with
      | Some _ => (tt, tx, Some (ErrorNew "add SKU failed"))
      | None => (tt, tx, None)
      end
    else (tt, tx, Some err)
  | Ok doc =>
    match DataAt doc nextField with
    | Err err => (tt, tx, Some err)
    | Ok (VInt val) => (tt, tx, None)
    | Ok _ => (tt, tx, Some (ErrorNew ("can't read " ++ nextField)))
    end
  end.

Definition startSKU (env : TxEnv) (s : Store) : Store * option error :=
  let '(_, s', r) := RunTransaction startSKU_body env s tt in (s', r).

(** [NewClient]: [dial] is the outcome of [firestore.NewClient]. *)
Definition NewClient (project : string) (dial : option Code) (env : TxEnv) (s : Store)
  : Store * option error :=
  if decide (project = EmptyString) then (s, Some (ErrorNew "no projectID"))
  else match dial with
       | Some c => (s, Some (ErrorWrap "failed to create FS client: " (StatusErr c)))
       | None => startSKU env s
       end.

Definition getNext (seqRef : DocRef) (tx : Tx) : Tx * result Z :=
  let '(tx, r) := tx_Get tx seqRef in
  match r with
  | Err err => (tx, Err err)
  | Ok seq =>
    match DataAt seq nextField with
    | Err err => (tx, Err err)
    | Ok (VInt val) => (tx, Ok val)
    | Ok _ => (tx, Err (ErrorNew ("can't read " ++ nextField)))
    end
  end.

(** ** The create orchestrator *)

(** The body of the transaction of [Client.create]; the [Item] is the
    caller's record, written through the pointer. *)
Definition create_body (ref : DocRef) (item : Item) (tx : Tx) : Item * Tx * option error :=
  let '(tx, r) := getNext seqRef tx in
  match r with
  | Err err => (item, tx, Some err)
  | Ok next =>
    let item := set_Sku item next in
    let '(tx, uerr) := tx_Update tx seqRef nextField (VInt (int_add next 1)) in
    match uerr with
    | Some err => (item, tx, Some err)
    | None =>
      let '(tx, cerr) := tx_Create tx ref (encode item) in
      match cerr with
      | Some err => (item, tx, Some err)
      | None => (item, tx, None)
      end
    end
  end.

Definition create (env : TxEnv) (s : Store) (ref : DocRef) (item : Item)
  : Item * Store * option error :=
  RunTransaction (create_body ref) env s item.

(** One turn of the [add:] loop: the identifier [uuid.New()] returns and
    what the environment does to the transaction. *)
Record Cycle := { new_uuid : string; cycle_env : TxEnv }.

(** [Client.AddItem].  The [goto add] loop has no bound; the list gives the
    turns the environment grants, and [None] is a loop still running when
    they are used up. *)
Fixpoint AddItem (cycles : list Cycle) (s : Store) (i : Item)
  : option (Item * Store * (string * option error)) :=
  match cycles with
  | [] => None
  | c :: cycles' =>
    let i := set_ID i (new_uuid c) in
    let ref := (Data, ID i) in
    let '(i, s', r) := create (cycle_env c) s ref i in
    match r with
    | Some err =>
      if decide (status_Code err = AlreadyExists) then AddItem cycles' s' i
      else Some (i, s', (EmptyString, Some err))
    | None => Some (i, s', (ID i, None))
    end
  end.

(** ** The query and CRUD facade *)

(** [ref.Get(ctx)] outside a transaction. *)
Definition doc_Get (flt : option Code) (s : Store) (r : DocRef) : result Doc :=
  match flt with
  | Some c => Err (StatusErr c)
  | None =>
    match get_doc s r with
    | Some d => Ok d
    | None => Err (StatusErr NotFound)
    end
  end.

(** [ref.Set(ctx, i)]: create or overwrite the whole document. *)
Definition doc_Set (flt : option Code) (s : Store) (r : DocRef) (d : Doc)
  : Store * option error :=
  match flt with
  | Some c => (s, Some (StatusErr c))
  | None => (put_doc s r d, None)
  end.

(** [ref.Delete(ctx)], without precondition: an absent document is not an
    error. *)
Definition doc_Delete (flt : option Code) (s : Store) (id : string)
  : Store * option error :=
  match flt with
  | Some c => (s, Some (StatusErr c))
  | None => ({| data := delete id (data s); util := util s |}, None)
  end.

(** Document snapshots of a query: the identifier ([doc.Ref.ID]) and the
    fields. *)
Definition id_le (p q : string * Doc) : Prop := String.leb p.1 q.1 = true.

#[global] Instance id_le_dec p q : Decision (id_le p q).
Proof. unfold id_le. apply _. Defined.

(** The documents of the item collection in ascending order of their
    identifiers: [c.data.OrderBy(firestore.DocumentID, firestore.Asc)],
    which is also the order of a query that asks for none. *)
Definition docs_by_id (s : Store) : list (string * Doc) :=
  merge_sort id_le (map_to_list (data s)).

(** [query.Documents(ctx).GetAll()] for the scan of [ListItems]. *)
Definition query_all (flt : option Code) (s : Store) : result (list (string * Doc)) :=
  match flt with
  | Some c => Err (StatusErr c)
  | None => Ok (docs_by_id s)
  end.

(** [c.data.Where("sku", "==", sku)] then [GetAll]. *)
Definition query_sku (flt : option Code) (s : Store) (sku : Z)
  : result (list (string * Doc)) :=
  match flt with
  | Some c => Err (StatusErr c)
  | None => Ok (filter (λ p, p.2 !! "sku" = Some (VInt sku)) (docs_by_id s))
  end.

Definition GetItem (flt : option Code) (s : Store) (id : string) : result Item :=
  match doc_Get flt s (Data, id) with
  | Err err =>
    if decide (status_Code err = NotFound) then Err (ErrorWrap (id ++ ": ") ErrNotFound)
    else Err (ErrorWrap ("item " ++ id ++ ": ") err)
  | Ok doc =>
    match DataTo doc with
    | Err err => Err (ErrorWrap ("item " ++ id ++ " decode: ") err)
    | Ok i => Ok i
    end
  end.

Definition GetItemBySKU (flt : option Code) (s : Store) (sku : Z) : result Item :=
  match query_sku flt s sku with
  | Err err => Err err
  | Ok docs =>
    match docs with
    | [] => Err (ErrorWrap ("sku " ++ Itoa sku ++ ": ") ErrNotFound)
    | doc0 :: _ =>
      match DataTo doc0.2 with
      | Err err => Err err
      | Ok i => Ok i
      end
    end
  end.

(** The loop of [ListItems] over the snapshots: the items appended so far
    and the identifiers written to the log. *)
Fixpoint ListItems_loop (docs : list (string * Doc)) (result : list Item) (logged : list string)
  : list Item * list string :=
  match docs with
  | [] => (result, logged)
  | doc :: docs' =>
    match DataTo doc.2 with
    | Err _ => ListItems_loop docs' result (logged ++ [doc.1])
    | Ok i => ListItems_loop docs' (result ++ [i]) logged
    end
  end.

(** [Client.ListItems]: the items and the error, and the identifiers the
    call logged as undecodable. *)
Definition ListItems (flt : option Code) (s : Store) : result (list Item) * list string :=
  match query_all flt s with
  | Err err => (Err err, [])
  | Ok docs =>
    let '(result, logged) := ListItems_loop docs [] [] in
    (Ok result, logged)
  end.

(** [Client.UpdateItem]: [fget] and [fset] are the outcomes of its two
    calls to the store. *)
Definition UpdateItem (fget fset : option Code) (s : Store) (i : Item) : Store * option error :=
  let ref := (Data, ID i) in
  match doc_Get fget s ref with
  | Err err =>
    if decide (status_Code err = NotFound) then (s, Some (ErrorWrap (ID i ++ ": ") ErrNotFound))
    else (s, Some err)
  | Ok _ =>
    match doc_Set fset s ref (encode i) with
    | (s', Some err) => (s', Some err)
    | (s', None) => (s', None)
    end
  end.

Definition DeleteItem (flt : option Code) (s : Store) (id : string) : Store * option error :=
  match doc_Delete flt s id with
  | (s', Some err) => (s', Some err)
  | (s', None) => (s', None)
  end.

(** ** Running the layer *)

Definition empty_store : Store := {| data := ∅; util := ∅ |}.

(** The counter as the store holds it. *)
Definition counter (s : Store) : option Value :=
  match util s !! skuDoc with
  | Some d => d !! nextField
  | None => None
  end.

Definition spoon : Item := {| ID := EmptyString; Name := "spoon"; Sku := 0 |}.
Definition spork : Item := {| ID := EmptyString; Name := "spork"; Sku := 0 |}.

Definition seeded : Store := (startSKU quiet empty_store).1.

(** A call of the layer's writing operations, with what the environment
    does to it. *)
Inductive Call :=
| CallAdd (cycles : list Cycle) (i : Item)
| CallUpdate (fget fset : option Code) (i : Item)
| CallDelete (flt : option Code) (id : string).

(** A client's history: the calls in order.  The result is the store at
    the end and the records whose [AddItem] returned without error, in the
    order of their creation; [None] when an [AddItem] is still looping. *)
Fixpoint run (calls : list Call) (s : Store) : option (Store * list Item) :=
  match calls with
  | [] => Some (s, [])
  | CallAdd cycles i :: calls' =>
    match AddItem cycles s i with
    | None => None
    | Some (i', s', (_, None)) =>
      match run calls' s' with
      | Some (s'', created) => Some (s'', i' :: created)
      | None => None
      end
    | Some (_, s', (_, Some _)) => run calls' s'
    end
  | CallUpdate fget fset i :: calls' => run calls' (UpdateItem fget fset s i).1
  | CallDelete flt id :: calls' => run calls' (DeleteItem flt s id).1
  end.

(** The spec's value of the counter after the records [created]: one more
    than the largest sequence number, or the seed when there is none. *)
Definition next_of (created : list Item) : Z :=
  match created with
  | [] => startSKU_const
  | i :: created' => 1 + foldr Z.max (Sku i) (Sku <$> created')
  end.

(** The calls that can lower a stored sequence number: an update whose
    record carries one below the seed. *)
Definition keeps_seed (c : Call) : Prop :=
  match c with
  | CallUpdate _ _ i => startSKU_const ≤ Sku i
  | _ => True
  end.

(** The sequence number a stored document carries. *)
Definition stored_sku (s : Store) (id : string) : option Value :=
  match data s !! id with
  | Some d => d !! "sku"
  | None => None
  end.

(** The transaction of [env] without its conflicted attempts. *)
Definition no_conflicts (env : TxEnv) : TxEnv :=
  {| conflicts := []; get_fault := get_fault env; commit_fault := commit_fault env |}.

(** The transactions one [RunTransaction] hands to its body, in order: one
    for each attempt that loses to a concurrent commit, then the last. *)
Definition attempts (env : TxEnv) (s : Store) : list Tx :=
  ((λ a, begin (seen a) (seen_fault a)) <$> conflicts env) ++ [begin s (get_fault env)].

(** The counter value [getNext] reads through a transaction, when it reads
    one. *)
Definition read_next (tx : Tx) : option Z :=
  match (getNext seqRef tx).2 with
  | Ok n => Some n
  | Err _ => None
  end.

(** The sequence field of a record that came in with [z], after the body of
    [create] was executed on the transactions [txs] for as long as the
    store's client executes it: every execution that reads the counter
    leaves the value read, and the first one that cannot read it ends the
    transaction. *)
Fixpoint sku_after (txs : list Tx) (z : Z) : Z :=
  match txs with
  | [] => z
  | tx :: txs' =>
    match read_next tx with
    | Some n => sku_after txs' n
    | None => z
    end
  end.

(** The same over the turns of the [add:] loop, each on the store [s]. *)
Definition sku_after_turns (cycles : list Cycle) (s : Store) (z : Z) : Z :=
  foldl (λ z c, sku_after (attempts (cycle_env c) s) z) z cycles.

(** ** Worked data and specification-level definitions *)

Definition spoon_u1 : Item := {| ID := "u1"; Name := "spoon"; Sku := 1000 |}.

(** The seeded store after the first record. *)
Definition seeded_spoon : Store :=
  put_doc (put_doc seeded seqRef (<[nextField := VInt 1001]> ∅)) (Data, "u1") (encode spoon_u1).

Definition seed_doc : Doc := <[nextField := VInt startSKU_const]> ∅.

(** [l] is [n], [n + 1], [n + 2], ... *)
Fixpoint consecutive (n : Z) (l : list Z) : Prop :=
  match l with
  | [] => True
  | x :: l' => x = n ∧ consecutive (n + 1) l'
  end.

Definition spork_a2 : Item := {| ID := "a2"; Name := "spork"; Sku := 1001 |}.

(** The seeded store after the two records. *)
Definition seeded_spoon_spork : Store :=
  put_doc (put_doc seeded_spoon seqRef (<[nextField := VInt 1002]> ∅))
          (Data, "a2") (encode spork_a2).

Definition turn (id : string) : Cycle := {| new_uuid := id; cycle_env := quiet |}.

(** Two creations; the second one first draws the identifier of the first
    and must draw again. *)
Definition spoon_then_spork : list Call :=
  [CallAdd [turn "u1"] spoon; CallAdd [turn "u1"; turn "a2"] spork].

(** A transaction whose commit fails because the store cannot be reached. *)
Definition commit_fails : TxEnv :=
  {| conflicts := []; get_fault := None; commit_fault := Some Unavailable |}.

(** A transaction that loses once to a concurrent commit: its first attempt
    read the seeded store, its second the store with the first record. *)
Definition one_conflict : TxEnv :=
  {| conflicts := [{| seen := seeded; seen_fault := None |}];
     get_fault := None; commit_fault := None |}.

(** A transaction that loses once to a concurrent commit, on the seeded
    store, and whose second attempt cannot be committed. *)
Definition conflict_then_commit_fails : TxEnv :=
  {| conflicts := [{| seen := seeded; seen_fault := None |}];
     get_fault := None; commit_fault := Some Unavailable |}.

(** Three turns granted to the loop: the first draws the identifier of a
    stored record, the commit of the second fails, the third is not run. *)
Definition collide_then_fail : list Cycle :=
  [turn "u1"; {| new_uuid := "a2"; cycle_env := conflict_then_commit_fails |}; turn "b3"].

Definition ladle_u1 : Item := {| ID := "u1"; Name := "ladle"; Sku := 0 |}.

(** A store whose counter document holds a string. *)
Definition malformed : Store :=
  {| data := ∅; util := <[skuDoc := <[nextField := VString "1000"]> ∅]> ∅ |}.

(** The spec's result of a scan: the records of the snapshots that decode,
    in the order of the scan, and the identifiers of those that do not. *)
Definition decoded (docs : list (string * Doc)) : list Item :=
  omap (λ doc, match DataTo doc.2 with Ok i => Some i | Err _ => None end) docs.

Definition undecodable (docs : list (string * Doc)) : list string :=
  omap (λ doc, match DataTo doc.2 with Ok _ => None | Err _ => Some doc.1 end) docs.

(** A store with a document that is not an item: its ["sku"] is a string. *)
Definition with_junk : Store :=
  put_doc seeded_spoon_spork (Data, "junk") (<["sku" := VString "twelve"]> ∅).

(** Every stored document carries a sequence number that is at least the
    seed. *)
Definition docs_at_least_seed (s : Store) : Prop :=
  ∀ id d, data s !! id = Some d → ∃ z, d !! "sku" = Some (VInt z) ∧ startSKU_const ≤ z.

(** ** The sequence index *)

(** Firestore's order on field values of different kinds (null, then
    booleans, then numbers, then strings) and inside each kind. *)
Definition value_le (v w : Value) : bool :=
  match v, w with
  | VNull, _ => true
  | VBool _, VNull => false
  | VBool a, VBool b => implb a b
  | VBool _, _ => true
  | VInt _, (VNull | VBool _) => false
  | VInt a, VInt b => a <=? b
  | VInt _, VString _ => true
  | VString a, VString b => String.leb a b
  | VString _, _ => false
  end.

Definition sku_of (p : string * Doc) : Value := default VNull (p.2 !! "sku").

(** The order of [c.data.OrderBy("sku", firestore.Asc)]: by the field, and
    by the identifier among equal fields. *)
Definition sku_le (p q : string * Doc) : Prop :=
  value_le (sku_of p) (sku_of q) && (negb (value_le (sku_of q) (sku_of p)) || String.leb p.1 q.1)
  = true.

#[global] Instance sku_le_dec p q : Decision (sku_le p q).
Proof. unfold sku_le. apply _. Defined.

(** The documents the scan of [ListSKUs] returns: those that have the
    field ["sku"], in its order. *)
Definition docs_by_sku (s : Store) : list (string * Doc) :=
  merge_sort sku_le (filter (λ p, is_Some (p.2 !! "sku")) (map_to_list (data s))).

Definition query_by_sku (flt : option Code) (s : Store) : result (list (string * Doc)) :=
  match flt with
  | Some c => Err (StatusErr c)
  | None => Ok (docs_by_sku s)
  end.

(** The loop of [ListSKUs]: the index built so far and the identifiers
    written to the log. *)
Fixpoint ListSKUs_loop (docs : list (string * Doc)) (result : gmap string string)
  (logged : list string) : gmap string string * list string :=
  match docs with
  | [] => (result, logged)
  | doc :: docs' =>
    match DataTo doc.2 with
    | Err _ => ListSKUs_loop docs' result (logged ++ [doc.1])
    | Ok i =>
      let sku := Itoa (Sku i) in
      ListSKUs_loop docs' (<[sku := ID i]> result) logged
    end
  end.

(** [Client.ListSKUs]: the index and the error, and the identifiers the
    call logged as undecodable. *)
Definition ListSKUs (flt : option Code) (s : Store) : result (gmap string string) * list string :=
  match query_by_sku flt s with
  | Err err => (Err err, [])
  | Ok docs =>
    let '(result, logged) := ListSKUs_loop docs ∅ [] in
    (Ok result, logged)
  end.

(** ** Stores written by the layer *)

(** Every document of the item collection is a record as [AddItem] writes
    it, under its own identifier. *)
Definition records_ok (s : Store) : Prop :=
  ∀ id d, data s !! id = Some d → ∃ i, d = encode i ∧ ID i = id.

(** No two stored records carry the same sequence number. *)
Definition sku_unique (s : Store) : Prop :=
  ∀ id1 id2 i1 i2,
    data s !! id1 = Some (encode i1) → data s !! id2 = Some (encode i2) →
    Sku i1 = Sku i2 → id1 = id2.

(** Every stored sequence number lies between the seed and [n]. *)
Definition sku_below (s : Store) (n : Z) : Prop :=
  ∀ id i, data s !! id = Some (encode i) → startSKU_const ≤ Sku i < n.

Definition is_update (c : Call) : Prop :=
  match c with
  | CallUpdate _ _ _ => True
  | _ => False
  end.

(** What the layer keeps true of a store it alone has written: the counter
    is [n], at least the seed, and the stored records are well formed,
    pairwise distinct in their sequence numbers, and numbered from the seed
    to below the counter. *)
Definition store_inv (s : Store) (n : Z) : Prop :=
  counter s = Some (VInt n) ∧ startSKU_const ≤ n ∧
  records_ok s ∧ sku_unique s ∧ sku_below s n.

(** ** More worked data *)

Definition spork_u1 : Item := {| ID := "u1"; Name := "spork"; Sku := 1001 |}.

(** A record is created, deleted, and a second one is created under the
    identifier the first one had. *)
Definition spoon_dropped_then_spork : list Call :=
  [CallAdd [turn "u1"] spoon; CallDelete None "u1"; CallAdd [turn "u1"] spork].

(** The seeded store after that history. *)
Definition seeded_respork : Store :=
  put_doc (put_doc seeded seqRef (<[nextField := VInt 1002]> ∅)) (Data, "u1") (encode spork_u1).

(** The index of a list of records: the identifier under the decimal of
    the sequence number, a later record replacing an earlier one of the
    same number. *)
Definition sku_index (items : list Item) : gmap string string :=
  foldl (λ m i, <[Itoa (Sku i) := ID i]> m) ∅ items.

(** The snapshot of a stored record. *)
Definition snapshot_of (i : Item) : string * Doc := (ID i, encode i).

(** Ascending identifiers. *)
Definition ID_le (i j : Item) : Prop := String.leb (ID i) (ID j) = true.

(** ** The GraphQL resolvers *)

(** [mutationResolver.CreateItem], with [name] the field of
    [model.NewItem]: the store afterwards and the result. *)
Definition CreateItem (cycles : list Cycle) (s : Store) (name : string)
  : option (Store * result Item) :=
  if decide (name = EmptyString) then Some (s, Err (ErrorNew "no name"))
  else
    let item := {| ID := EmptyString; Name := name; Sku := 0 |} in
    match AddItem cycles s item with
    | None => None
    | Some (item, s', (_, Some err)) => Some (s', Err err)
    | Some (item, s', (_, None)) => Some (s', Ok item)
    end.

(** [queryResolver.Items]. *)
Definition Items (flt : option Code) (s : Store) : result (list Item) :=
  match (ListItems flt s).1 with
  | Err err => Err err
  | Ok items => Ok items
  end.

(** [queryResolver.Item]. *)
Definition Item_by_sku (flt : option Code) (s : Store) (sku : Z) : result Item :=
  match GetItemBySKU flt s sku with
  | Err err => Err err
  | Ok item => Ok item
  end.

(** ** The HTTP handlers *)

(** [http.ResponseWriter]: the header map the handler can still write,
    the status and the headers that went out with the first
    [WriteHeader] or [Write], and the body written so far. *)
Record ResponseWriter := {
  header : gmap string string;
  wrote : option (Z * gmap string string);
  body : string
}.

Definition new_writer : ResponseWriter := {| header := ∅; wrote := None; body := EmptyString |}.

(** [w.Header().Set(k, v)] and [w.Header().Del(k)]. *)
Definition Header_Set (k v : string) (w : ResponseWriter) : ResponseWriter :=
  {| header := <[k := v]> (header w); wrote := wrote w; body := body w |}.

Definition Header_Del (k : string) (w : ResponseWriter) : ResponseWriter :=
  {| header := delete k (header w); wrote := wrote w; body := body w |}.

(** [w.WriteHeader(code)]: the first call sends the status and the headers
    as they are; a later call is ignored. *)
Definition WriteHeader (code : Z) (w : ResponseWriter) : ResponseWriter :=
  match wrote w with
  | Some _ => w
  | None => {| header := header w; wrote := Some (code, header w); body := body w |}
  end.

(** [w.Write(text)]: sends status 200 first when no status went out yet. *)
Definition w_Write (text : string) (w : ResponseWriter) : ResponseWriter :=
  let w := WriteHeader 200 w in
  {| header := header w; wrote := wrote w; body := body w ++ text |}.

(** [fmt.Fprintln(w, text)]. *)
Definition newline : string := String (Ascii.ascii_of_nat 10) EmptyString.

Definition Fprintln (text : string) (w : ResponseWriter) : ResponseWriter :=
  w_Write (text ++ newline) w.

(** [http.Error(w, text, code)]. *)
Definition http_Error (text : string) (code : Z) (w : ResponseWriter) : ResponseWriter :=
  let w := Header_Del "Content-Length" w in
  let w := Header_Set "Content-Type" "text/plain; charset=utf-8" w in
  let w := Header_Set "X-Content-Type-Options" "nosniff" w in
  let w := WriteHeader code w in
  Fprintln text w.

(** The status the client receives: the one sent, or 200 when the handler
    returned without sending one. *)
Definition status_sent (w : ResponseWriter) : Z :=
  match wrote w with
  | Some (code, _) => code
  | None => 200
  end.

(** The headers the client receives. *)
Definition headers_sent (w : ResponseWriter) : gmap string string :=
  match wrote w with
  | Some (_, h) => h
  | None => header w
  end.

Definition StatusOK : Z := 200.
Definition StatusCreated : Z := 201.
Definition StatusBadRequest : Z := 400.
Definition StatusNotFound : Z := 404.
Definition StatusConflict : Z := 409.
Definition StatusInternalServerError : Z := 500.

(** The texts the handlers take from libraries: what [json.Encoder.Encode]
    writes for a record, a list of records and an index, and the message
    of a gRPC status error. *)
Record Texts := {
  json_item : Item → string;
  json_items : list Item → string;
  json_index : gmap string string → string;
  status_text : Code → string
}.

(** [err.Error()]. *)
Fixpoint Error (tx : Texts) (e : error) : string :=
  match e with
  | ErrNotFound => "not found"
  | StatusErr c => status_text tx c
  | ErrorNew msg => msg
  | ErrorWrap msg inner => msg ++ Error tx inner
  end.

(** [json.NewEncoder(w).Encode(v)], with [text] what it writes for [v] and
    [enc] the error of the encoding, if any: an encoding that fails has
    written nothing. *)
Definition Encode (enc : option error) (text : string) (w : ResponseWriter)
  : ResponseWriter * option error :=
  match enc with
  | Some err => (w, Some err)
  | None => (w_Write text w, None)
  end.

(** The tail of the reading handlers: the content type, the encoding, and
    the status 500 when the encoding fails. *)
Definition write_json (tx : Texts) (enc : option error) (text : string) (w : ResponseWriter)
  : ResponseWriter :=
  let w := Header_Set "Content-Type" "application/json" w in
  match Encode enc text w with
  | (w, Some err) =>
    let w := WriteHeader StatusInternalServerError w in
    Fprintln (Error tx err) w
  | (w, None) => w
  end.

(** The branch all handlers share for an error of the database. *)
Definition write_db_error (tx : Texts) (err : error) (w : ResponseWriter) : ResponseWriter :=
  if errors_Is err ErrNotFound then http_Error (Error tx err) StatusNotFound w
  else http_Error (Error tx err) StatusInternalServerError w.



(** [app.location]. *)
Definition location (url host id : string) : string :=
  "http://" ++ host ++ url ++ "/" ++ id.

(** [app.add]: [decoded_body] is the record [json.Decoder.Decode] read from
    the request, [None] when it returned an error. *)
Definition handle_add (tx : Texts) (decoded_body : option Item) (url host : string)
  (cycles : list Cycle) (enc : option error) (s : Store) (w : ResponseWriter)
  : option (Store * ResponseWriter) :=
  match decoded_body with
  | None => Some (s, http_Error "Invalid input" StatusBadRequest w)
  | Some item =>
    if decide (Name item = EmptyString)
    then Some (s, http_Error "Invalid input" StatusBadRequest w)
    else if decide (ID item ≠ EmptyString)
    then Some (s, http_Error "Key assigned" StatusConflict w)
    else
      match AddItem cycles s item with
      | None => None
      | Some (item, s', (id, err)) =>
        let w :=
          match err with
          | Some err => http_Error (Error tx err) StatusInternalServerError w
          | None => w
          end in
        let w := Header_Set "Content-Type" "application/json" w in
        let w := Header_Set "Location" (location url host id) w in
        let w := WriteHeader StatusCreated w in
        Some (s', (Encode enc (json_item tx item) w).1)
      end
  end.

(** [app.get]. *)
Definition handle_get (tx : Texts) (flt : option Code) (enc : option error) (s : Store)
  (id : string) (w : ResponseWriter) : ResponseWriter :=
  match GetItem flt s id with
  | Err err => write_db_error tx err w
  | Ok item => write_json tx enc (json_item tx item) w
  end.

(** [app.getSKU]: [atoi] is the outcome of [strconv.Atoi] on the path
    variable. *)
Definition handle_getSKU (tx : Texts) (atoi : result Z) (flt : option Code)
  (enc : option error) (s : Store) (w : ResponseWriter) : ResponseWriter :=
  match atoi with
  | Err err => http_Error (Error tx err) StatusBadRequest w
  | Ok sku =>
    match GetItemBySKU flt s sku with
    | Err err => write_db_error tx err w
    | Ok item => write_json tx enc (json_item tx item) w
    end
  end.

(** [app.put]. *)
Definition handle_put (tx : Texts) (decoded_body : option Item) (fget fset : option Code)
  (s : Store) (id : string) (w : ResponseWriter) : Store * ResponseWriter :=
  match decoded_body with
  | None => (s, http_Error "Invalid input" StatusBadRequest w)
  | Some item =>
    if decide (Name item = EmptyString)
    then (s, http_Error "Invalid input" StatusBadRequest w)
    else
      let item := set_ID item id in
      match UpdateItem fget fset s item with
      | (s', Some err) => (s', write_db_error tx err w)
      | (s', None) => (s', w)
      end
  end.

(** [app.drop]. *)
Definition handle_drop (tx : Texts) (flt : option Code) (s : Store) (id : string)
  (w : ResponseWriter) : Store * ResponseWriter :=
  match DeleteItem flt s id with
  | (s', Some err) => (s', http_Error (Error tx err) StatusInternalServerError w)
  | (s', None) => (s', w)
  end.

(** Sample texts: a rendering of records without escapes. *)
Definition sample_json_item (i : Item) : string :=
  "{id:" ++ ID i ++ ",name:" ++ Name i ++ ",sku:" ++ Itoa (Sku i) ++ "}".

Definition sample_texts : Texts :=
  {| json_item := sample_json_item;
     json_items := λ l, "[" ++ String.concat "," (sample_json_item <$> l) ++ "]";
     json_index := λ m, "{" ++ String.concat "," ((λ p, p.1 ++ ":" ++ p.2) <$> map_to_list m) ++ "}";
     status_text := λ c, "rpc error" |}.

(** ** The in-memory double of the tests *)

#[global] Instance Item_inhabited : Inhabited Item :=
  populate {| ID := EmptyString; Name := EmptyString; Sku := 0 |}.

Module Mock.

(** [*Item]: the address of a record on the heap.  The double keeps the
    pointers it is given, so a record it holds is shared with the caller. *)
Definition loc : Type := nat.
Abbreviation heap := (gmap nat Item).

Definition errShouldFail : error := ErrorNew "mock should fail".
Definition errInvalid : error := ErrorNew "invalid operation".

(** [mockDB]: [data] is [None] for the nil map. *)
Record mockDB := { data : option (gmap string loc); next : Z; fail : bool }.

Definition zero : mockDB := {| data := None; next := 0; fail := false |}.

(** The entries of the map, none for the nil map. *)
Definition entries (m : mockDB) : list (string * loc) :=
  match data m with
  | Some d => map_to_list d
  | None => []
  end.

(** The [add:] loop of [AddItem]: [d] and [n] are the map and [m.next]. *)
Fixpoint AddItem_loop (uuids : list string) (h : heap) (d : gmap string loc) (n : Z)
  (f : bool) (i : loc) : option (heap * mockDB * (string * option error)) :=
  match uuids with
  | [] => None
  | id :: uuids' =>
    let h := <[i := set_ID (h !!! i) id]> h in
    match d !! id with
    | Some _ => AddItem_loop uuids' h d n f i
    | None =>
      let h := <[i := set_Sku (h !!! i) n]> h in
      Some (h, {| data := Some (<[id := i]> d); next := int_add n 1; fail := f |},
            (id, None))
    end
  end.

(** [mockDB.AddItem]: [uuids] are the identifiers [uuid.New()] returns. *)
Definition AddItem (uuids : list string) (h : heap) (m : mockDB) (i : loc)
  : option (heap * mockDB * (string * option error)) :=
  if fail m then Some (h, m, (EmptyString, Some errShouldFail))
  else
    match data m with
    | None => AddItem_loop uuids h ∅ 1000 (fail m) i
    | Some d =>
      if decide (ID (h !!! i) ≠ EmptyString)
      then Some (h, m, (EmptyString, Some errInvalid))
      else AddItem_loop uuids h d (next m) (fail m) i
    end.

Definition GetItem (m : mockDB) (id : string) : result loc :=
  if fail m then Err errShouldFail
  else
    match data m with
    | Some d =>
      match d !! id with
      | Some i => Ok i
      | None => Err ErrNotFound
      end
    | None => Err ErrNotFound
    end.

(** [mockDB.GetItemBySKU]: [visit] is the order in which [range m.data]
    yields the entries, which the language leaves open. *)
Definition GetItemBySKU (visit : list (string * loc)) (h : heap) (m : mockDB) (sku : Z)
  : result loc :=
  if fail m then Err errShouldFail
  else
    match list_find (λ p, Sku (h !!! p.2) = sku) visit with
    | Some (_, p) => Ok p.2
    | None => Err ErrNotFound
    end.

Definition ListItems (visit : list (string * loc)) (m : mockDB) : result (list loc) :=
  if fail m then Err errShouldFail
  else Ok (visit.*2).

Definition ListSKUs (visit : list (string * loc)) (h : heap) (m : mockDB)
  : result (gmap string string) :=
  if fail m then Err errShouldFail
  else Ok (foldl (λ r p, <[Itoa (Sku (h !!! p.2)) := ID (h !!! p.2)]> r) ∅ visit).

Definition UpdateItem (h : heap) (m : mockDB) (i : loc) : mockDB * option error :=
  if fail m then (m, Some errShouldFail)
  else
    match data m with
    | None => (m, Some errInvalid)
    | Some d =>
      ({| data := Some (<[ID (h !!! i) := i]> d); next := next m; fail := fail m |}, None)
    end.

Definition DeleteItem (m : mockDB) (id : string) : mockDB * option error :=
  if fail m then (m, Some errShouldFail)
  else
    match data m with
    | None => (m, Some errInvalid)
    | Some d => ({| data := Some (delete id d); next := next m; fail := fail m |}, None)
    end.

(** The loop of [preload] from [i] on, [k] turns to go; each turn puts a
    new record on the heap. *)
Fixpoint preload_loop (k : nat) (i : Z) (uuids : list string) (h : heap)
  (d : gmap string loc) (n : Z) : option (heap * gmap string loc * Z) :=
  match k with
  | O => Some (h, d, n)
  | S k' =>
    match uuids with
    | [] => None
    | id :: uuids' =>
      let item := {| ID := id; Name := "item-" ++ Itoa i; Sku := n |} in
      let l := fresh (dom h) in
      preload_loop k' (i + 1) uuids' (<[l := item]> h) (<[id := l]> d) (int_add n 1)
    end
  end.

(** [mockDB.preload]: nine records; [None] when [uuids] has fewer than nine
    identifiers. *)
Definition preload (uuids : list string) (h : heap) (m : mockDB) : option (heap * mockDB) :=
  let '(d, n) :=
    match data m with
    | None => (∅, 1000)
    | Some d => (d, next m)
    end in
  match preload_loop 9 1 uuids h d n with
  | Some (h', d', n') => Some (h', {| data := Some d'; next := n'; fail := fail m |})
  | None => None
  end.

End Mock.

(** Worked data for the double: the caller's record at address 0, and the
    double after it was added. *)
Definition heap_spoon : gmap nat Item := <[0%nat := spoon]> ∅.

Definition mock_spoon : Mock.mockDB :=
  {| Mock.data := Some (<["u1" := 0%nat]> ∅); Mock.next := 1001; Mock.fail := false |}.

Definition nine_uuids : list string := ["a"; "b"; "c"; "d"; "e"; "f"; "g"; "h"; "i"].

(** ** Machine integers: facts *)

Lemma wrap64_id z : min_int64 ≤ z ≤ max_int64 → wrap64 z = z.
Proof.
  unfold wrap64, min_int64, max_int64. intros Hz.
  rewrite Z.mod_small; lia.
Qed.

Lemma int_add_succ n : min_int64 ≤ n < max_int64 → int_add n 1 = n + 1.
Proof. intros Hn. unfold int_add. apply wrap64_id. lia. Qed.

(** ** The store: facts *)

Lemma get_put_eq s r d : get_doc (put_doc s r d) r = Some d.
Proof.
  destruct r as [[] id]; unfold get_doc, put_doc; simpl; apply lookup_insert_eq.
Qed.

Lemma get_put_ne s r r' d : r ≠ r' → get_doc (put_doc s r d) r' = get_doc s r'.
Proof.
  destruct r as [[] id], r' as [[] id']; unfold get_doc, put_doc; simpl; intros Hne;
    try reflexivity; apply lookup_insert_ne; congruence.
Qed.

Lemma counter_get_doc s :
  counter s = match get_doc s seqRef with Some d => d !! nextField | None => None end.
Proof. reflexivity. Qed.

(** ** Transactions: facts *)

(** The three outcomes of [getNext] on a fresh transaction. *)
Lemma getNext_begin s f :
  getNext seqRef (begin s f) =
  let tx := tx_record (begin s f) (TxRead seqRef) in
  match f with
  | Some c => (tx, Err (StatusErr c))
  | None =>
    match get_doc s seqRef with
    | None => (tx, Err (StatusErr NotFound))
    | Some d =>
      match d !! nextField with
      | None => (tx, Err (ErrorNew ("firestore: no field " ++ nextField)))
      | Some (VInt n) => (tx, Ok n)
      | Some _ => (tx, Err (ErrorNew ("can't read " ++ nextField)))
      end
    end
  end.
Proof.
  unfold getNext, tx_Get. simpl.
  destruct f as [c|]; [reflexivity|].
  destruct (get_doc s seqRef) as [d|]; [|reflexivity].
  unfold DataAt. destruct (d !! nextField) as [[]|]; reflexivity.
Qed.

(** A body of [create] that returns [nil] read the counter, and did the
    three store operations in this order. *)
Lemma create_body_nil s f ref item item' tx :
  create_body ref item (begin s f) = (item', tx, None) →
  ∃ n, f = None ∧ counter s = Some (VInt n) ∧ item' = set_Sku item n ∧
       tx_log tx = [TxRead seqRef;
                    TxWrite (WUpdate seqRef nextField (VInt (int_add n 1)));
                    TxWrite (WCreate ref (encode item'))].
Proof.
  unfold create_body. rewrite getNext_begin, counter_get_doc. cbv zeta.
  destruct f as [c|]; [discriminate|].
  destruct (get_doc s seqRef) as [d|]; [|discriminate].
  destruct (d !! nextField) as [[| |n|]|]; try discriminate.
  simpl. intros [= <- <-]. exists n. auto.
Qed.

Lemma create_body_counter s ref item n :
  counter s = Some (VInt n) →
  create_body ref item (begin s None) =
  (set_Sku item n,
   {| tx_snapshot := s; tx_fault := None;
      tx_log := [TxRead seqRef;
                 TxWrite (WUpdate seqRef nextField (VInt (int_add n 1)));
                 TxWrite (WCreate ref (encode (set_Sku item n)))] |},
   None).
Proof.
  rewrite counter_get_doc. intros Hc.
  unfold create_body. rewrite getNext_begin. cbv zeta.
  destruct (get_doc s seqRef) as [d|]; [|discriminate].
  rewrite Hc. reflexivity.
Qed.

(** Whatever the body does, it leaves the record's identifier and name
    alone. *)
Lemma create_body_frame ref item tx item' tx' r :
  create_body ref item tx = (item', tx', r) → ID item' = ID item ∧ Name item' = Name item.
Proof.
  unfold create_body. destruct (getNext seqRef tx) as [tx1 [n|e]]; simpl.
  - intros [= <- _ _]. auto.
  - intros [= <- _ _]. auto.
Qed.

Section RunTransactionFacts.
Context {H : Type}.
Variable body : H → Tx → H * Tx * option error.

Lemma RunTransaction_nil env s h h' s' :
  RunTransaction body env s h = (h', s', None) →
  ∃ h1 tx, run_conflicts body (conflicts env) h = (h1, None) ∧
           body h1 (begin s (get_fault env)) = (h', tx, None) ∧
           commit_fault env = None ∧
           apply_writes s (tx_writes tx) = Ok s'.
Proof.
  unfold RunTransaction.
  destruct (run_conflicts body (conflicts env) h) as [h1 [e|]]; [discriminate|].
  destruct (body h1 (begin s (get_fault env))) as [[h2 tx] [e|]] eqn:Hb; [discriminate|].
  destruct (commit_fault env); [discriminate|].
  destruct (apply_writes s (tx_writes tx)) as [s2|e] eqn:Hw; [|discriminate].
  intros [= <- <-]. exists h1, tx. auto.
Qed.

(** A transaction that returns an error has written nothing. *)
Lemma RunTransaction_err env s h h' s' e :
  RunTransaction body env s h = (h', s', Some e) → s' = s.
Proof.
  unfold RunTransaction.
  destruct (run_conflicts body (conflicts env) h) as [h1 [e1|]]; [congruence|].
  destruct (body h1 (begin s (get_fault env))) as [[h2 tx] [e2|]]; [congruence|].
  destruct (commit_fault env); [congruence|].
  destruct (apply_writes s (tx_writes tx)) as [s2|e3]; congruence.
Qed.
End RunTransactionFacts.

(** ** The create orchestrator: facts *)

Lemma run_conflicts_frame ref cs item item1 r :
  run_conflicts (create_body ref) cs item = (item1, r) →
  ID item1 = ID item ∧ Name item1 = Name item.
Proof.
  revert item. induction cs as [|c cs IH]; intros item; simpl.
  - intros [= <- _]. auto.
  - destruct (create_body ref item (begin (seen c) (seen_fault c))) as [[i1 tx1] r1] eqn:Hb.
    apply create_body_frame in Hb as [Hid Hname].
    destruct r1 as [e|].
    + intros [= <- _]. auto.
    + intros Hrun. apply IH in Hrun as [-> ->]. auto.
Qed.

Lemma set_Sku_frame item item1 n :
  ID item1 = ID item → Name item1 = Name item → set_Sku item1 n = set_Sku item n.
Proof. unfold set_Sku. intros -> ->. reflexivity. Qed.

(** What a [create] that returns [nil] has done to the record and to the
    store. *)
Lemma create_nil env s ref item item' s' :
  create env s ref item = (item', s', None) →
  ∃ n d, get_fault env = None ∧ commit_fault env = None ∧
         get_doc s seqRef = Some d ∧ d !! nextField = Some (VInt n) ∧
         item' = set_Sku item n ∧
         ref ≠ seqRef ∧ get_doc s ref = None ∧
         s' = put_doc (put_doc s seqRef (<[nextField := VInt (int_add n 1)]> d))
                      ref (encode item').
Proof.
  unfold create. intros Hrun.
  apply RunTransaction_nil in Hrun as (item1 & tx & Hconf & Hbody & Hcommit & Hw).
  apply run_conflicts_frame in Hconf as [Hid Hname].
  apply create_body_nil in Hbody as (n & Hf & Hc & Hitem & Hlog).
  rewrite counter_get_doc in Hc.
  destruct (get_doc s seqRef) as [d|] eqn:Hd; [|discriminate].
  exists n, d. rewrite (set_Sku_frame item item1 n Hid Hname) in Hitem.
  unfold tx_writes in Hw. rewrite Hlog in Hw. simpl in Hw. rewrite Hd in Hw.
  destruct (decide (ref = seqRef)) as [->|Hne].
  { rewrite get_put_eq in Hw. discriminate. }
  rewrite get_put_ne in Hw by congruence.
  destruct (get_doc s ref) eqn:Href; [discriminate|].
  injection Hw as <-. auto 10.
Qed.

Lemma create_err env s ref item item' s' e :
  create env s ref item = (item', s', Some e) → s' = s.
Proof. apply RunTransaction_err. Qed.

Lemma create_frame env s ref item item' s' r :
  create env s ref item = (item', s', r) → ID item' = ID item ∧ Name item' = Name item.
Proof.
  unfold create, RunTransaction.
  destruct (run_conflicts (create_body ref) (conflicts env) item) as [i1 r1] eqn:Hc.
  apply run_conflicts_frame in Hc as [Hid Hname].
  destruct r1 as [e1|]; [intros [= <- _ _]; auto|].
  destruct (create_body ref i1 (begin s (get_fault env))) as [[i2 tx] r2] eqn:Hb.
  apply create_body_frame in Hb as [Hid2 Hname2].
  assert (ID i2 = ID item ∧ Name i2 = Name item) as Hi2 by (split; congruence).
  destruct r2 as [e2|]; [intros [= <- _ _]; auto|].
  destruct (commit_fault env); [intros [= <- _ _]; auto|].
  destruct (apply_writes s (tx_writes tx)); intros [= <- _ _]; auto.
Qed.

(** The counter after a committed [create]. *)
Lemma create_nil_counter env s ref item item' s' :
  create env s ref item = (item', s', None) →
  ∃ n, counter s = Some (VInt n) ∧ Sku item' = n ∧
       counter s' = Some (VInt (int_add n 1)).
Proof.
  intros Hc. apply create_nil in Hc as (n & d & _ & _ & Hd & Hn & -> & Hne & _ & ->).
  exists n. rewrite !counter_get_doc, Hd.
  rewrite get_put_ne by congruence. rewrite get_put_eq.
  split; [assumption|]. split; [reflexivity|]. apply lookup_insert_eq.
Qed.

(** C1. A [create] that returns [nil] has, in its committing transaction,
    read the counter's [next] value [n] through the transaction, written
    [n] to the record's sequence field, staged the update of the same
    counter document to [n + 1] (Go's [+] on [int]) and then staged the
    insertion of the record with [Create], which commits only if the
    document is absent; the read comes first, the two writes follow in this
    order, and the store afterwards holds exactly these two writes. *)
Theorem create_reads_assigns_advances_inserts env s ref item item' s' :
  create env s ref item = (item', s', None) →
  ∃ n item1 tx,
    counter s = Some (VInt n) ∧
    create_body ref item1 (begin s (get_fault env)) = (item', tx, None) ∧
    tx_log tx = [TxRead seqRef;
                 TxWrite (WUpdate seqRef nextField (VInt (int_add n 1)));
                 TxWrite (WCreate ref (encode item'))] ∧
    apply_writes s (tx_writes tx) = Ok s' ∧
    item' = set_Sku item n ∧
    (min_int64 ≤ n < max_int64 → int_add n 1 = n + 1) ∧
    get_doc s ref = None ∧
    counter s' = Some (VInt (int_add n 1)) ∧
    get_doc s' ref = Some (encode item').
Proof.
  intros Hc.
  destruct (create_nil_counter _ _ _ _ _ _ Hc) as (n & Hn & _ & Hn').
  destruct (create_nil _ _ _ _ _ _ Hc) as (n0 & d & _ & _ & Hd & Hdn & Hitem & Hne & Href & Hs').
  assert (n0 = n) as ->.
  { rewrite counter_get_doc, Hd, Hdn in Hn. congruence. }
  unfold create in Hc.
  apply RunTransaction_nil in Hc as (item1 & tx & Hconf & Hbody & Hcommit & Hw).
  exists n, item1, tx.
  destruct (create_body_nil _ _ _ _ _ _ Hbody) as (n1 & _ & Hn1 & _ & Hlog).
  assert (n1 = n) as -> by congruence.
  repeat split; try assumption.
  - apply int_add_succ.
  - rewrite Hs'. apply get_put_eq.
Qed.

Lemma create_reads_assigns_advances_inserts_witness :
  ∃ n item1 tx,
    counter seeded = Some (VInt n) ∧
    create_body (Data, "u1") item1 (begin seeded None) = (spoon_u1, tx, None) ∧
    tx_log tx = [TxRead seqRef;
                 TxWrite (WUpdate seqRef nextField (VInt (int_add n 1)));
                 TxWrite (WCreate (Data, "u1") (encode spoon_u1))] ∧
    apply_writes seeded (tx_writes tx) = Ok seeded_spoon ∧
    spoon_u1 = set_Sku (set_ID spoon "u1") n ∧
    (min_int64 ≤ n < max_int64 → int_add n 1 = n + 1) ∧
    get_doc seeded (Data, "u1") = None ∧
    counter seeded_spoon = Some (VInt (int_add n 1)) ∧
    get_doc seeded_spoon (Data, "u1") = Some (encode spoon_u1).
Proof.
  apply (create_reads_assigns_advances_inserts quiet seeded (Data, "u1") (set_ID spoon "u1")).
  vm_compute. reflexivity.
Defined.

(** ** The retry loop: facts *)

(** Every result of [AddItem] is the result of one [create], the last one
    of the loop, for the identifier of its turn; the turns before it ended
    in [AlreadyExists] and left the store alone. *)
Lemma AddItem_last_create cycles s i i' s' id r :
  AddItem cycles s i = Some (i', s', (id, r)) →
  ∃ c i0, c ∈ cycles ∧ Name i0 = Name i ∧
          create (cycle_env c) s (Data, new_uuid c) (set_ID i0 (new_uuid c)) = (i', s', r) ∧
          match r with
          | None => id = new_uuid c
          | Some e => id = EmptyString ∧ status_Code e ≠ AlreadyExists
          end.
Proof.
  revert i. induction cycles as [|c cycles IH]; intros i; simpl; [discriminate|].
  destruct (create (cycle_env c) s (Data, new_uuid c) (set_ID i (new_uuid c)))
    as [[i1 s1] r1] eqn:Hc.
  destruct (create_frame _ _ _ _ _ _ _ Hc) as [Hid Hname]. simpl in Hid, Hname.
  destruct r1 as [e|].
  - destruct (decide (status_Code e = AlreadyExists)) as [Hex|Hex].
    + apply create_err in Hc as ->. intros Hrec.
      apply IH in Hrec as (c' & i0 & Hin & Hn & Hcr & Hr).
      exists c', i0. split; [apply elem_of_cons; by right|].
      split; [congruence|]. auto.
    + intros [= <- <- <- <-]. exists c, i.
      split; [apply elem_of_cons; by left|]. auto.
  - intros [= <- <- <- <-]. exists c, i.
    split; [apply elem_of_cons; by left|]. rewrite Hid. auto.
Qed.

Lemma AddItem_err cycles s i i' s' id e :
  AddItem cycles s i = Some (i', s', (id, Some e)) →
  s' = s ∧ id = EmptyString ∧ status_Code e ≠ AlreadyExists ∧ Name i' = Name i ∧
  ∃ c, c ∈ cycles ∧ ID i' = new_uuid c.
Proof.
  intros Ha. apply AddItem_last_create in Ha as (c & i0 & Hin & Hn & Hc & -> & Hcode).
  destruct (create_frame _ _ _ _ _ _ _ Hc) as [Hid Hname]. simpl in Hid, Hname.
  apply create_err in Hc as ->.
  repeat split; [assumption|congruence|]. by exists c.
Qed.

Lemma AddItem_nil cycles s i i' s' id :
  AddItem cycles s i = Some (i', s', (id, None)) →
  ∃ n d, get_doc s seqRef = Some d ∧ d !! nextField = Some (VInt n) ∧
         i' = {| ID := id; Name := Name i; Sku := n |} ∧
         data s !! id = None ∧
         s' = {| data := <[id := encode i']> (data s);
                 util := <[skuDoc := <[nextField := VInt (int_add n 1)]> d]> (util s) |}.
Proof.
  intros Ha. apply AddItem_last_create in Ha as (c & i0 & Hin & Hname & Hc & ->).
  apply create_nil in Hc as (n & d & _ & _ & Hd & Hn & Hi' & _ & Href & Hs').
  exists n, d. repeat split; try assumption.
  - rewrite Hi'. unfold set_Sku, set_ID. simpl. by rewrite Hname.
Qed.

(** ** Counter initialisation: facts *)

Lemma startSKU_nil env s s1 :
  startSKU env s = (s1, None) →
  match get_doc s seqRef with
  | None => s1 = put_doc s seqRef seed_doc
  | Some d => s1 = s ∧ ∃ n, d !! nextField = Some (VInt n)
  end.
Proof.
  unfold startSKU.
  destruct (RunTransaction startSKU_body env s ()) as [[u s2] r] eqn:Hrun.
  intros [= -> ->].
  apply RunTransaction_nil in Hrun as (u1 & tx & _ & Hbody & _ & Hw).
  revert Hbody. unfold startSKU_body, tx_Get, begin, tx_writes. simpl.
  destruct (get_fault env) as [c|].
  - simpl. destruct (decide (c = NotFound)) as [->|Hc]; [|discriminate].
    simpl. intros [= _ <-]. revert Hw. unfold tx_writes. simpl.
    destruct (get_doc s seqRef); [discriminate|]. by intros [= <-].
  - destruct (get_doc s seqRef) as [d|] eqn:Hd.
    + unfold DataAt. destruct (d !! nextField) as [[| |n|]|]; try discriminate.
      intros [= _ <-]. revert Hw. unfold tx_writes. simpl. intros [= <-]. eauto.
    + simpl. intros [= _ <-]. revert Hw. unfold tx_writes. simpl.
      rewrite Hd. by intros [= <-].
Qed.

Lemma startSKU_seeds env s s1 :
  util s !! skuDoc = None → startSKU env s = (s1, None) →
  counter s1 = Some (VInt startSKU_const) ∧ data s1 = data s.
Proof.
  intros Habs Hs. apply startSKU_nil in Hs.
  change (get_doc s seqRef) with (util s !! skuDoc) in Hs. rewrite Habs in Hs.
  subst s1. split; [|reflexivity].
  rewrite counter_get_doc, get_put_eq. reflexivity.
Qed.

(** ** Histories: the counter *)

Lemma consecutive_max l : ∀ n b,
  consecutive n l → b ≤ n →
  foldr Z.max b l = match l with [] => b | _ => n + Z.of_nat (length l) - 1 end.
Proof.
  induction l as [|x l IH]; intros n b Hc Hb; [reflexivity|].
  destruct Hc as [-> Hc]. simpl foldr.
  rewrite (IH (n + 1) b Hc) by lia.
  destruct l as [|y l]; simpl length; lia.
Qed.

Lemma consecutive_next_of created :
  consecutive startSKU_const (Sku <$> created) →
  next_of created = startSKU_const + Z.of_nat (length created).
Proof.
  destruct created as [|i created]; [reflexivity|].
  intros Hcons.
  change (Sku i = startSKU_const ∧ consecutive (startSKU_const + 1) (Sku <$> created)) in Hcons.
  destruct Hcons as [Hi Hc]. unfold next_of. rewrite Hi.
  rewrite (consecutive_max _ (startSKU_const + 1) startSKU_const Hc) by lia.
  rewrite length_fmap.
  destruct created; cbn [fmap list_fmap length]; lia.
Qed.

Lemma consecutive_ge l : ∀ n x, consecutive n l → x ∈ l → n ≤ x.
Proof.
  induction l as [|y l IH]; intros n x Hc Hx.
  - by apply elem_of_nil in Hx.
  - destruct Hc as [-> Hc]. apply elem_of_cons in Hx as [->|Hx]; [lia|].
    specialize (IH _ _ Hc Hx). lia.
Qed.

Lemma UpdateItem_util fget fset s i : util (UpdateItem fget fset s i).1 = util s.
Proof.
  unfold UpdateItem, doc_Get, doc_Set.
  destruct fget; simpl; [by case_decide|].
  destruct (get_doc s (Data, ID i)); simpl; [|reflexivity].
  destruct fset; reflexivity.
Qed.

Lemma DeleteItem_util flt s id : util (DeleteItem flt s id).1 = util s.
Proof. unfold DeleteItem, doc_Delete. destruct flt; reflexivity. Qed.

Lemma counter_util s s' : util s' = util s → counter s' = counter s.
Proof. unfold counter. by intros ->. Qed.

(** An [AddItem] that returns [nil] took the counter's value and left the
    counter one further. *)
Lemma AddItem_nil_counter cycles s i i' s' id :
  AddItem cycles s i = Some (i', s', (id, None)) →
  ∃ n, counter s = Some (VInt n) ∧ Sku i' = n ∧ counter s' = Some (VInt (int_add n 1)).
Proof.
  intros Ha. apply AddItem_last_create in Ha as (c & i0 & _ & _ & Hc & _).
  by apply create_nil_counter in Hc.
Qed.

(** Along a history the counter counts the records created, and these
    carry the counter's successive values. *)
Lemma run_counter calls : ∀ s n s' created,
  counter s = Some (VInt n) → min_int64 ≤ n →
  n + Z.of_nat (length calls) ≤ max_int64 →
  run calls s = Some (s', created) →
  counter s' = Some (VInt (n + Z.of_nat (length created))) ∧
  consecutive n (Sku <$> created) ∧
  (length created ≤ length calls)%nat.
Proof.
  induction calls as [|c calls IH]; intros s n s' created Hn Hmin Hmax; simpl.
  - intros [= <- <-]. simpl. rewrite Z.add_0_r. auto.
  - simpl length in Hmax. destruct c as [cycles i|fget fset i|flt id].
    + destruct (AddItem cycles s i) as [[[i1 s1] [id [e|]]]|] eqn:Ha; [| |discriminate].
      * apply AddItem_err in Ha as (-> & _). intros Hrun.
        destruct (IH s n s' created Hn Hmin ltac:(lia) Hrun) as (? & ? & ?).
        repeat split; [assumption|assumption|lia].
      * apply AddItem_nil_counter in Ha as (n0 & Hn0 & Hsku & Hn1).
        assert (n0 = n) as -> by congruence.
        rewrite int_add_succ in Hn1 by lia.
        destruct (run calls s1) as [[s2 created1]|] eqn:Hrun; [|discriminate].
        intros [= <- <-].
        destruct (IH s1 (n + 1) s2 created1 Hn1 ltac:(lia) ltac:(lia) Hrun) as (Hc & Hcons & Hlen).
        simpl. repeat split; [|assumption|assumption|lia].
        rewrite Hc. do 2 f_equal. lia.
    + intros Hrun.
      destruct (IH _ n s' created
                  ltac:(by rewrite (counter_util s _ (UpdateItem_util fget fset s i)))
                  Hmin ltac:(lia) Hrun) as (? & ? & ?).
      repeat split; [assumption|assumption|lia].
    + intros Hrun.
      destruct (IH _ n s' created
                  ltac:(by rewrite (counter_util s _ (DeleteItem_util flt s id)))
                  Hmin ltac:(lia) Hrun) as (? & ? & ?).
      repeat split; [assumption|assumption|lia].
Qed.

(** C2. From a store whose counter [startSKU] has just seeded, after any
    history of the layer's calls the counter's [next] is one more than the
    largest sequence number of the records created, or the seed 1000 when
    none was created (as long as the counter stays in the range of [int]);
    from any store with a counter, the records created carry the counter's
    successive values and [next] has advanced by their number; a [create]
    that returns [nil] leaves [next] exactly one further; a [create] that
    returns an error leaves the store, and so [next], as it was. *)
Theorem next_is_one_past_max_sequence :
  (∀ env s0 s1 calls s created,
     util s0 !! skuDoc = None →
     startSKU env s0 = (s1, None) →
     startSKU_const + Z.of_nat (length calls) ≤ max_int64 →
     run calls s1 = Some (s, created) →
     counter s = Some (VInt (next_of created))) ∧
  (∀ calls s n s' created,
     counter s = Some (VInt n) → min_int64 ≤ n →
     n + Z.of_nat (length calls) ≤ max_int64 →
     run calls s = Some (s', created) →
     counter s' = Some (VInt (n + Z.of_nat (length created))) ∧
     consecutive n (Sku <$> created)) ∧
  (∀ env s ref item item' s' n,
     create env s ref item = (item', s', None) →
     counter s = Some (VInt n) →
     min_int64 ≤ n < max_int64 →
     counter s' = Some (VInt (n + 1))) ∧
  (∀ env s ref item item' s' e,
     create env s ref item = (item', s', Some e) →
     s' = s ∧ counter s' = counter s).
Proof.
  split; [|split; [|split]].
  - intros env s0 s1 calls s created Habs Hstart Hmax Hrun.
    destruct (startSKU_seeds _ _ _ Habs Hstart) as [Hseed _].
    destruct (run_counter calls s1 _ s created Hseed
                ltac:(unfold min_int64, startSKU_const; lia) Hmax Hrun)
      as (Hc & Hcons & _).
    by rewrite consecutive_next_of.
  - intros calls s n s' created Hn Hmin Hmax Hrun.
    destruct (run_counter calls s n s' created Hn Hmin Hmax Hrun) as (Hc & Hcons & _).
    auto.
  - intros env s ref item item' s' n Hc Hn Hrange.
    apply create_nil_counter in Hc as (n0 & Hn0 & _ & Hn1).
    assert (n0 = n) as -> by congruence.
    by rewrite int_add_succ in Hn1.
  - intros env s ref item item' s' e Hc. apply create_err in Hc as ->. auto.
Qed.

Lemma next_is_one_past_max_sequence_witness :
  counter seeded_spoon_spork = Some (VInt (next_of [spoon_u1; spork_a2])) ∧
  (counter seeded_spoon_spork = Some (VInt (1001 + Z.of_nat (length [spork_a2]))) ∧
   consecutive 1001 (Sku <$> [spork_a2])) ∧
  counter seeded_spoon = Some (VInt (1000 + 1)) ∧
  (create quiet seeded_spoon (Data, "u1") (set_ID spork "u1")
     = (set_Sku (set_ID spork "u1") 1001, seeded_spoon, Some (StatusErr AlreadyExists)) ∧
   counter seeded_spoon = counter seeded_spoon).
Proof.
  destruct next_is_one_past_max_sequence as (Hseeded & Hrun & Hnil & Herr).
  split; [|split; [|split]].
  - apply (Hseeded quiet empty_store seeded spoon_then_spork).
    + reflexivity.
    + vm_compute. reflexivity.
    + unfold startSKU_const, max_int64. simpl. lia.
    + vm_compute. reflexivity.
  - apply (Hrun [CallAdd [turn "u1"; turn "a2"] spork] seeded_spoon).
    + vm_compute. reflexivity.
    + unfold min_int64. lia.
    + unfold max_int64. simpl. lia.
    + vm_compute. reflexivity.
  - apply (Hnil quiet seeded (Data, "u1") (set_ID spoon "u1") spoon_u1).
    + vm_compute. reflexivity.
    + vm_compute. reflexivity.
    + unfold min_int64, max_int64. lia.
  - assert (create quiet seeded_spoon (Data, "u1") (set_ID spork "u1")
            = (set_Sku (set_ID spork "u1") 1001, seeded_spoon, Some (StatusErr AlreadyExists)))
      as Hc by (vm_compute; reflexivity).
    split; [exact Hc|]. exact (proj2 (Herr _ _ _ _ _ _ _ Hc)).
Defined.

(** ** The record the caller passed *)

(** C3, as stated, fails.  The store is seeded and the commit of the only
    turn fails: [AddItem] returns the error, and the caller's record, which
    came in with an empty identifier and sequence 0, now carries the
    generated identifier and the counter value read by the body.  Without
    any fault of the store, on a store that has no counter document, the
    identifier is overwritten all the same. *)
Lemma AddItem_error_overwrites_record :
  (AddItem [{| new_uuid := "u1"; cycle_env := commit_fails |}] seeded spoon
     = Some (spoon_u1, seeded, (EmptyString, Some (StatusErr Unavailable))) ∧
   ID spoon_u1 ≠ ID spoon ∧ Sku spoon_u1 ≠ Sku spoon) ∧
  (AddItem [turn "u1"] empty_store spoon
     = Some (set_ID spoon "u1", empty_store, (EmptyString, Some (StatusErr NotFound))) ∧
   ID (set_ID spoon "u1") ≠ ID spoon).
Proof.
  repeat split; try (vm_compute; reflexivity); vm_compute; discriminate.
Qed.

(** A [create] that meets no conflict and no fault, on a store with a
    counter and without the document, commits. *)
Lemma create_commits env s ref item n d :
  conflicts env = [] → get_fault env = None → commit_fault env = None →
  get_doc s seqRef = Some d → d !! nextField = Some (VInt n) →
  ref ≠ seqRef → get_doc s ref = None →
  create env s ref item =
  (set_Sku item n,
   put_doc (put_doc s seqRef (<[nextField := VInt (int_add n 1)]> d)) ref
           (encode (set_Sku item n)),
   None).
Proof.
  intros Hconf Hget Hcommit Hd Hn Hne Href.
  unfold create, RunTransaction. rewrite Hconf, Hget, Hcommit. simpl run_conflicts. cbv iota beta.
  rewrite (create_body_counter s ref item n) by (by rewrite counter_get_doc, Hd).
  unfold tx_writes. simpl. rewrite Hd.
  rewrite get_put_ne by congruence. rewrite Href. reflexivity.
Qed.

(** The loop goes on only after a collision. *)
Lemma AddItem_None cycles : ∀ s i,
  AddItem cycles s i = None →
  ∀ c, c ∈ cycles →
       ∃ i0 i1 e, create (cycle_env c) s (Data, new_uuid c) (set_ID i0 (new_uuid c))
                    = (i1, s, Some e) ∧ status_Code e = AlreadyExists.
Proof.
  induction cycles as [|c0 cycles IH]; intros s i Hnone c Hin.
  - by apply elem_of_nil in Hin.
  - simpl in Hnone.
    destruct (create (cycle_env c0) s (Data, new_uuid c0) (set_ID i (new_uuid c0)))
      as [[i1 s1] [e|]] eqn:Hc; [|discriminate].
    destruct (decide (status_Code e = AlreadyExists)) as [Hex|]; [|discriminate].
    pose proof (create_err _ _ _ _ _ _ _ Hc) as ->.
    apply elem_of_cons in Hin as [->|Hin]; [by exists i, i1, e|].
    by apply (IH s i1).
Qed.

(** ** The record the caller passed: what an error leaves in it *)

Lemma read_next_begin t f n :
  read_next (begin t f) = Some n ↔ f = None ∧ counter t = Some (VInt n).
Proof.
  unfold read_next. rewrite getNext_begin, counter_get_doc. cbv zeta.
  destruct f as [c|]; [simpl; split; [discriminate|intros [? _]; discriminate]|].
  destruct (get_doc t seqRef) as [d|];
    [|simpl; split; [discriminate|intros [_ ?]; discriminate]].
  destruct (d !! nextField) as [[]|]; simpl; split;
    try discriminate; try (intros [_ ?]; congruence).
  intros [= ->]. auto.
Qed.

(** One execution of the body: it writes the value it read to the record
    and stages the two writes, or it cannot read the counter and returns
    the error with the record as it was. *)
Lemma create_body_read ref item tx item' tx' r :
  create_body ref item tx = (item', tx', r) →
  match read_next tx with
  | Some n => item' = set_Sku item n ∧ r = None
  | None => item' = item ∧ is_Some r
  end.
Proof.
  unfold create_body, read_next. destruct (getNext seqRef tx) as [tx1 [n|e]]; simpl.
  - intros [= <- _ <-]. auto.
  - intros [= <- _ <-]. eauto.
Qed.

Lemma run_conflicts_sku ref cs : ∀ item item1 r txs,
  run_conflicts (create_body ref) cs item = (item1, r) →
  sku_after (((λ a, begin (seen a) (seen_fault a)) <$> cs) ++ txs) (Sku item) =
  match r with
  | None => sku_after txs (Sku item1)
  | Some _ => Sku item1
  end.
Proof.
  induction cs as [|c cs IH]; intros item item1 r txs; simpl.
  - by intros [= <- <-].
  - destruct (create_body ref item (begin (seen c) (seen_fault c))) as [[i1 tx1] r1] eqn:Hb.
    apply create_body_read in Hb.
    destruct (read_next (begin (seen c) (seen_fault c))) as [n|].
    + destruct Hb as [-> ->]. intros Hrun. by rewrite <- (IH _ _ _ txs Hrun).
    + destruct Hb as [-> [e ->]]. by intros [= <- <-].
Qed.

Lemma create_sku env s ref item item' s' r :
  create env s ref item = (item', s', r) →
  item' = set_Sku item (sku_after (attempts env s) (Sku item)).
Proof.
  intros Hc. destruct (create_frame _ _ _ _ _ _ _ Hc) as [Hid Hname].
  assert (Sku item' = sku_after (attempts env s) (Sku item)) as Hsku.
  { revert Hc. unfold create, RunTransaction, attempts.
    destruct (run_conflicts (create_body ref) (conflicts env) item) as [i1 r1] eqn:Hconf.
    rewrite (run_conflicts_sku _ _ _ _ _ [begin s (get_fault env)] Hconf).
    destruct r1 as [e1|]; [by intros [= <- _ _]|].
    destruct (create_body ref i1 (begin s (get_fault env))) as [[i2 tx] r2] eqn:Hb.
    apply create_body_read in Hb. cbn [sku_after].
    destruct (read_next (begin s (get_fault env))) as [n|].
    - destruct Hb as [-> ->].
      destruct (commit_fault env); [by intros [= <- _ _]|].
      destruct (apply_writes s (tx_writes tx)); by intros [= <- _ _].
    - destruct Hb as [-> [e ->]]. by intros [= <- _ _]. }
  destruct item', item. unfold set_Sku. simpl in *. congruence.
Qed.

Lemma sku_after_cases txs : ∀ z,
  sku_after txs z = z ∨ ∃ tx, tx ∈ txs ∧ read_next tx = Some (sku_after txs z).
Proof.
  induction txs as [|tx txs IH]; intros z; simpl; [by left|].
  destruct (read_next tx) as [n|] eqn:Hr; [|by left].
  right. destruct (IH n) as [->|(tx' & Hin & Hr')].
  - exists tx. split; [apply elem_of_cons; by left|assumption].
  - exists tx'. split; [apply elem_of_cons; by right|assumption].
Qed.

Lemma sku_after_turns_cases cycles s : ∀ z,
  sku_after_turns cycles s z = z ∨
  ∃ c tx, c ∈ cycles ∧ tx ∈ attempts (cycle_env c) s ∧
          read_next tx = Some (sku_after_turns cycles s z).
Proof.
  unfold sku_after_turns.
  induction cycles as [|c cycles IH]; intros z; simpl; [by left|].
  destruct (IH (sku_after (attempts (cycle_env c) s) z)) as [->|(c' & tx & Hin & Htx & Hr)].
  - destruct (sku_after_cases (attempts (cycle_env c) s) z) as [->|(tx & Htx & Hr)];
      [by left|].
    right. exists c, tx. split; [apply elem_of_cons; by left|]. auto.
  - right. exists c', tx. split; [apply elem_of_cons; by right|]. auto.
Qed.

(** The turn in which [AddItem] returned an error: the turns before it
    ended in a collision, the turns after it were not run. *)
Lemma AddItem_err_last cycles : ∀ s i i' s' id e,
  AddItem cycles s i = Some (i', s', (id, Some e)) →
  ∃ pre c post i0,
    cycles = (pre ++ c :: post)%list ∧
    AddItem pre s i = None ∧
    (∀ post', AddItem (pre ++ c :: post')%list s i = Some (i', s, (EmptyString, Some e))) ∧
    create (cycle_env c) s (Data, new_uuid c) (set_ID i0 (new_uuid c)) = (i', s, Some e) ∧
    Name i0 = Name i ∧
    Sku i' = sku_after_turns (pre ++ [c])%list s (Sku i).
Proof.
  induction cycles as [|c0 cycles IH]; intros s i i' s' id e; simpl; [discriminate|].
  destruct (create (cycle_env c0) s (Data, new_uuid c0) (set_ID i (new_uuid c0)))
    as [[i1 s1] r1] eqn:Hc.
  destruct (create_frame _ _ _ _ _ _ _ Hc) as [_ Hname]. simpl in Hname.
  pose proof (create_sku _ _ _ _ _ _ _ Hc) as Hsku.
  apply (f_equal Sku) in Hsku. simpl in Hsku.
  destruct r1 as [e1|]; [|discriminate].
  pose proof (create_err _ _ _ _ _ _ _ Hc) as ->.
  destruct (decide (status_Code e1 = AlreadyExists)) as [Hex|Hex].
  - intros Hrec.
    apply IH in Hrec as (pre & c & post & i0 & -> & Hpre & Hpost & Hlast & Hn & Hs).
    exists (c0 :: pre), c, post, i0. split; [reflexivity|].
    split; [simpl; rewrite Hc; by rewrite decide_True|].
    split; [intros post'; simpl; rewrite Hc; by rewrite decide_True|].
    split; [assumption|]. split; [congruence|].
    rewrite Hs, Hsku. reflexivity.
  - intros [= <- <- <- <-]. exists [], c0, cycles, i.
    split; [reflexivity|]. split; [reflexivity|].
    split; [intros post'; simpl; rewrite Hc; by rewrite decide_False|].
    split; [assumption|]. split; [reflexivity|]. exact Hsku.
Qed.

(** C3, amended.  The body writes the caller's record before the commit:
    an execution that reads the counter leaves the value read in the
    record's sequence field and returns [nil], one that cannot read it
    leaves the record as it was and returns an error; the value read is the
    counter of the snapshot.  So whatever a [create] returns, the record it
    leaves is the one it was given with the sequence field left by its
    executions.  When [AddItem] returns an error, the store is as it was,
    no identifier is returned, and the turns split into those that ended in
    a collision, the turn that returned the error, and turns never run
    (whatever turns follow, the result is the same); the
    [create] of that turn was started on a record that already carried the
    turn's identifier; the caller's record keeps its name, carries the
    identifier of that turn, and its sequence is the one left by the
    executions of the turns that ran: its own, or a counter value read in
    one of them.  The re-execution of the body is harmless: a [create] that
    commits after conflicted attempts leaves the record and the store
    exactly as the single execution on the final snapshot does. *)
Theorem AddItem_error_keeps_store_and_reexecution_is_harmless :
  (∀ ref item tx item' tx' r,
     create_body ref item tx = (item', tx', r) →
     match read_next tx with
     | Some n => item' = set_Sku item n ∧ r = None
     | None => item' = item ∧ is_Some r
     end) ∧
  (∀ t f n, read_next (begin t f) = Some n ↔ f = None ∧ counter t = Some (VInt n)) ∧
  (∀ env s ref item item' s' r,
     create env s ref item = (item', s', r) →
     item' = set_Sku item (sku_after (attempts env s) (Sku item))) ∧
  (∀ cycles s i i' s' id e,
     AddItem cycles s i = Some (i', s', (id, Some e)) →
     s' = s ∧ id = EmptyString ∧
     ∃ pre c post i0,
       cycles = (pre ++ c :: post)%list ∧
       AddItem pre s i = None ∧
       (∀ post', AddItem (pre ++ c :: post')%list s i = Some (i', s, (EmptyString, Some e))) ∧
       (∀ c0, c0 ∈ pre →
          ∃ i1 i2 e0,
            create (cycle_env c0) s (Data, new_uuid c0) (set_ID i1 (new_uuid c0))
              = (i2, s, Some e0) ∧ status_Code e0 = AlreadyExists) ∧
       create (cycle_env c) s (Data, new_uuid c) (set_ID i0 (new_uuid c)) = (i', s, Some e) ∧
       status_Code e ≠ AlreadyExists ∧
       i' = {| ID := new_uuid c; Name := Name i;
               Sku := sku_after_turns (pre ++ [c])%list s (Sku i) |} ∧
       (Sku i' = Sku i ∨
        ∃ c1 tx, c1 ∈ (pre ++ [c])%list ∧ tx ∈ attempts (cycle_env c1) s ∧
                 read_next tx = Some (Sku i'))) ∧
  (∀ env s ref item item' s',
     create env s ref item = (item', s', None) →
     create (no_conflicts env) s ref item = (item', s', None)).
Proof.
  split; [exact create_body_read|]. split; [exact read_next_begin|].
  split; [exact create_sku|]. split.
  - intros cycles s i i' s' id e Ha.
    destruct (AddItem_err _ _ _ _ _ _ _ Ha) as (-> & -> & Hcode & _).
    split; [reflexivity|]. split; [reflexivity|].
    apply AddItem_err_last in Ha as (pre & c & post & i0 & -> & Hpre & Hpost & Hlast & Hn & Hs).
    exists pre, c, post, i0. split; [reflexivity|]. split; [assumption|].
    split; [assumption|].
    split; [intros c0 Hin; by apply (AddItem_None pre s i)|].
    split; [assumption|]. split; [assumption|].
    destruct (create_frame _ _ _ _ _ _ _ Hlast) as [Hid Hname]. simpl in Hid, Hname.
    split.
    + destruct i'. simpl in *. congruence.
    + rewrite Hs. apply sku_after_turns_cases.
  - intros env s ref item item' s' Hc.
    apply create_nil in Hc as (n & d & Hget & Hcommit & Hd & Hn & -> & Hne & Href & ->).
    by apply create_commits.
Qed.

Lemma AddItem_error_keeps_store_and_reexecution_is_harmless_witness :
  match read_next (begin seeded None) with
  | Some n => spoon_u1 = set_Sku (set_ID spoon "u1") n ∧ (None : option error) = None
  | None => spoon_u1 = set_ID spoon "u1" ∧ is_Some (None : option error)
  end ∧
  set_Sku (set_ID spork "u1") 1001
    = set_Sku (set_ID spork "u1")
              (sku_after (attempts quiet seeded_spoon) (Sku (set_ID spork "u1"))) ∧
  (seeded_spoon = seeded_spoon ∧ EmptyString = EmptyString ∧
   ∃ pre c post i0,
     collide_then_fail = (pre ++ c :: post)%list ∧
     AddItem pre seeded_spoon spork = None ∧
     (∀ post', AddItem (pre ++ c :: post')%list seeded_spoon spork
               = Some (spork_a2, seeded_spoon, (EmptyString, Some (StatusErr Unavailable)))) ∧
     (∀ c0, c0 ∈ pre →
        ∃ i1 i2 e0,
          create (cycle_env c0) seeded_spoon (Data, new_uuid c0) (set_ID i1 (new_uuid c0))
            = (i2, seeded_spoon, Some e0) ∧ status_Code e0 = AlreadyExists) ∧
     create (cycle_env c) seeded_spoon (Data, new_uuid c) (set_ID i0 (new_uuid c))
       = (spork_a2, seeded_spoon, Some (StatusErr Unavailable)) ∧
     status_Code (StatusErr Unavailable) ≠ AlreadyExists ∧
     spork_a2 = {| ID := new_uuid c; Name := Name spork;
                   Sku := sku_after_turns (pre ++ [c])%list seeded_spoon (Sku spork) |} ∧
     (Sku spork_a2 = Sku spork ∨
      ∃ c1 tx, c1 ∈ (pre ++ [c])%list ∧ tx ∈ attempts (cycle_env c1) seeded_spoon ∧
               read_next tx = Some (Sku spork_a2))) ∧
  create (no_conflicts one_conflict) seeded_spoon (Data, "a2") (set_ID spork "a2")
    = (spork_a2, seeded_spoon_spork, None).
Proof.
  destruct AddItem_error_keeps_store_and_reexecution_is_harmless
    as (Hbody & _ & Hcreate & Herr & Hre).
  split; [|split; [|split]].
  - eapply (Hbody (Data, "u1") (set_ID spoon "u1") (begin seeded None) spoon_u1 _ None).
    vm_compute. reflexivity.
  - apply (Hcreate quiet seeded_spoon (Data, "u1") (set_ID spork "u1")
                   (set_Sku (set_ID spork "u1") 1001) seeded_spoon
                   (Some (StatusErr AlreadyExists))).
    vm_compute. reflexivity.
  - apply (Herr collide_then_fail seeded_spoon spork spork_a2 seeded_spoon EmptyString
                (StatusErr Unavailable)).
    vm_compute. reflexivity.
  - apply (Hre one_conflict seeded_spoon (Data, "a2") (set_ID spork "a2")).
    vm_compute. reflexivity.
Defined.

(** ** The retry loop *)

(** C4. One turn of [AddItem]: when the [create] of the turn reports
    [AlreadyExists] the store is as before and the whole cycle runs again
    with the next generated identifier; when it reports any other error,
    [AddItem] returns that very error, with no identifier, and runs no
    further turn; when it reports none, [AddItem] returns the identifier.
    So an error that [AddItem] returns is never [AlreadyExists], and a loop
    that has not returned has met a collision in every turn. *)
Theorem AddItem_retries_exactly_on_AlreadyExists :
  (∀ c cycles s i i1 s1 r,
     create (cycle_env c) s (Data, new_uuid c) (set_ID i (new_uuid c)) = (i1, s1, r) →
     match r with
     | Some e =>
       if decide (status_Code e = AlreadyExists)
       then s1 = s ∧ ID i1 = new_uuid c ∧ AddItem (c :: cycles) s i = AddItem cycles s i1
       else AddItem (c :: cycles) s i = Some (i1, s, (EmptyString, Some e))
     | None => AddItem (c :: cycles) s i = Some (i1, s1, (new_uuid c, None))
     end) ∧
  (∀ cycles s i i' s' id e,
     AddItem cycles s i = Some (i', s', (id, Some e)) →
     status_Code e ≠ AlreadyExists) ∧
  (∀ cycles s i c,
     AddItem cycles s i = None → c ∈ cycles →
     ∃ i0 i1 e, create (cycle_env c) s (Data, new_uuid c) (set_ID i0 (new_uuid c))
                  = (i1, s, Some e) ∧ status_Code e = AlreadyExists).
Proof.
  split; [|split].
  - intros c cycles s i i1 s1 r Hc.
    destruct (create_frame _ _ _ _ _ _ _ Hc) as [Hid _]. simpl in Hid.
    simpl. rewrite Hc. destruct r as [e|].
    + pose proof (create_err _ _ _ _ _ _ _ Hc) as ->.
      destruct (decide (status_Code e = AlreadyExists)); auto.
    + by rewrite Hid.
  - intros cycles s i i' s' id e Ha. by apply AddItem_err in Ha as (_ & _ & Hcode & _).
  - intros cycles s i c Hnone Hin. by apply (AddItem_None cycles s i).
Qed.

Lemma AddItem_retries_exactly_on_AlreadyExists_witness :
  (seeded_spoon = seeded_spoon ∧ ID (set_Sku (set_ID spork "u1") 1001) = "u1" ∧
   AddItem [turn "u1"; turn "a2"] seeded_spoon spork
     = AddItem [turn "a2"] seeded_spoon (set_Sku (set_ID spork "u1") 1001)) ∧
  AddItem [{| new_uuid := "u1"; cycle_env := commit_fails |}; turn "a2"] seeded spoon
    = Some (spoon_u1, seeded, (EmptyString, Some (StatusErr Unavailable))) ∧
  status_Code (StatusErr Unavailable) ≠ AlreadyExists ∧
  ∃ i0 i1 e, create quiet seeded_spoon (Data, "u1") (set_ID i0 "u1")
               = (i1, seeded_spoon, Some e) ∧ status_Code e = AlreadyExists.
Proof.
  destruct AddItem_retries_exactly_on_AlreadyExists as (Hturn & Hnever & Hloop).
  split; [|split; [|split]].
  - apply (Hturn (turn "u1") [turn "a2"] seeded_spoon spork
                 (set_Sku (set_ID spork "u1") 1001) seeded_spoon
                 (Some (StatusErr AlreadyExists))).
    vm_compute. reflexivity.
  - apply (Hturn {| new_uuid := "u1"; cycle_env := commit_fails |} [turn "a2"] seeded spoon
                 spoon_u1 seeded (Some (StatusErr Unavailable))).
    vm_compute. reflexivity.
  - apply (Hnever [{| new_uuid := "u1"; cycle_env := commit_fails |}] seeded spoon
                  spoon_u1 seeded EmptyString).
    vm_compute. reflexivity.
  - apply (Hloop [turn "u1"] seeded_spoon spork (turn "u1")).
    + vm_compute. reflexivity.
    + apply elem_of_cons. by left.
Defined.

(** ** Update *)

Lemma encode_id i : encode i !! "id" = Some (VString (ID i)).
Proof. unfold encode. apply lookup_insert_eq. Qed.

Lemma encode_name i : encode i !! "name" = Some (VString (Name i)).
Proof. unfold encode. rewrite lookup_insert_ne by done. apply lookup_insert_eq. Qed.

Lemma encode_sku i : encode i !! "sku" = Some (VInt (Sku i)).
Proof. unfold encode. rewrite !lookup_insert_ne by done. apply lookup_insert_eq. Qed.

(** What the store wrote for a record decodes to that record. *)
Lemma DataTo_encode i : DataTo (encode i) = Ok i.
Proof.
  unfold DataTo, decode_string, decode_int.
  rewrite encode_id, encode_name, encode_sku. by destruct i.
Qed.

Lemma GetItem_stored s id i :
  data s !! id = Some (encode i) → GetItem None s id = Ok i.
Proof.
  intros Hd. unfold GetItem, doc_Get, get_doc. simpl. rewrite Hd.
  by rewrite DataTo_encode.
Qed.

(** An [UpdateItem] that returns [nil] found the document and replaced it
    by the caller's record. *)
Lemma UpdateItem_nil fget fset s i s' :
  UpdateItem fget fset s i = (s', None) →
  is_Some (data s !! ID i) ∧
  s' = {| data := <[ID i := encode i]> (data s); util := util s |}.
Proof.
  unfold UpdateItem, doc_Get, doc_Set, get_doc. simpl.
  destruct fget as [c|].
  { simpl. case_decide; discriminate. }
  destruct (data s !! ID i) as [d|]; [|simpl; discriminate].
  destruct fset as [c|]; [discriminate|].
  intros [= <-]. split; [by exists d|reflexivity].
Qed.

(** C5, as stated, fails.  The store holds the record ["u1"] with sequence
    1000; the caller updates it with a record that carries the new name and
    no sequence (0, what the HTTP handler passes for a body without
    ["sku"]): the update returns [nil] and the stored sequence is 0. *)
Lemma UpdateItem_overwrites_sequence :
  GetItem None seeded_spoon "u1" = Ok spoon_u1 ∧
  ∃ s', UpdateItem None None seeded_spoon ladle_u1 = (s', None) ∧
        GetItem None s' "u1" = Ok ladle_u1 ∧
        stored_sku seeded_spoon "u1" = Some (VInt 1000) ∧
        stored_sku s' "u1" = Some (VInt 0).
Proof.
  split; [vm_compute; reflexivity|].
  eexists. split; [vm_compute; reflexivity|].
  repeat split; vm_compute; reflexivity.
Qed.

(** C5, amended.  After an [UpdateItem] that returns [nil] the record
    existed before, and the stored record is the caller's record, field
    for field, every other document being untouched: the stored sequence is
    the one the caller supplied, so it is the sequence the record had
    before exactly when the caller supplied that one. *)
Theorem UpdateItem_stores_the_callers_record fget fset s i s' :
  UpdateItem fget fset s i = (s', None) →
  is_Some (data s !! ID i) ∧
  GetItem None s' (ID i) = Ok i ∧
  stored_sku s' (ID i) = Some (VInt (Sku i)) ∧
  (∀ old, GetItem None s (ID i) = Ok old →
          (stored_sku s' (ID i) = Some (VInt (Sku old)) ↔ Sku i = Sku old)) ∧
  (∀ id, id ≠ ID i → data s' !! id = data s !! id) ∧
  util s' = util s.
Proof.
  intros Hu. apply UpdateItem_nil in Hu as [Hex ->].
  assert (stored_sku {| data := <[ID i := encode i]> (data s); util := util s |} (ID i)
          = Some (VInt (Sku i))) as Hsku.
  { unfold stored_sku. simpl. rewrite lookup_insert_eq. apply encode_sku. }
  split; [assumption|]. split.
  { apply GetItem_stored. simpl. apply lookup_insert_eq. }
  split; [assumption|]. split.
  { intros old _. rewrite Hsku. split; congruence. }
  split; [|reflexivity].
  intros id Hne. simpl. by apply lookup_insert_ne.
Qed.

Lemma UpdateItem_stores_the_callers_record_witness :
  is_Some (data seeded_spoon !! "u1") ∧
  GetItem None (UpdateItem None None seeded_spoon ladle_u1).1 "u1" = Ok ladle_u1 ∧
  stored_sku (UpdateItem None None seeded_spoon ladle_u1).1 "u1" = Some (VInt 0) ∧
  (∀ old, GetItem None seeded_spoon "u1" = Ok old →
          (stored_sku (UpdateItem None None seeded_spoon ladle_u1).1 "u1"
             = Some (VInt (Sku old)) ↔ 0 = Sku old)) ∧
  (∀ id, id ≠ "u1" →
         data (UpdateItem None None seeded_spoon ladle_u1).1 !! id = data seeded_spoon !! id) ∧
  util (UpdateItem None None seeded_spoon ladle_u1).1 = util seeded_spoon.
Proof.
  apply (UpdateItem_stores_the_callers_record None None seeded_spoon ladle_u1).
  vm_compute. reflexivity.
Defined.

(** ** Counter initialisation *)

(** C6. [startSKU] runs at client construction, in a transaction of its
    own.  On a store without the counter document it creates the document
    with [next] = 1000; on a store whose counter holds an integer it
    stages no write and leaves the store as it is; on a store whose counter
    document does not hold an integer under [next] it returns an error,
    the store is as it was and [NewClient] returns that error. *)
Theorem startSKU_seeds_keeps_or_fails :
  (∀ project env s, project ≠ EmptyString → NewClient project None env s = startSKU env s) ∧
  (∀ s, util s !! skuDoc = None →
        startSKU quiet s = ({| data := data s; util := <[skuDoc := seed_doc]> (util s) |}, None) ∧
        counter (startSKU quiet s).1 = Some (VInt 1000)) ∧
  (∀ s d n, util s !! skuDoc = Some d → d !! nextField = Some (VInt n) →
            startSKU quiet s = (s, None) ∧
            tx_writes (startSKU_body () (begin s None)).1.2 = []) ∧
  (∀ s d, util s !! skuDoc = Some d → (∀ n, d !! nextField ≠ Some (VInt n)) →
          ∃ e, startSKU quiet s = (s, Some e) ∧
               ∀ project, project ≠ EmptyString → NewClient project None quiet s = (s, Some e)).
Proof.
  split; [|split; [|split]].
  - intros project env s Hp. unfold NewClient. by rewrite decide_False.
  - intros s Habs.
    assert (startSKU quiet s
            = ({| data := data s; util := <[skuDoc := seed_doc]> (util s) |}, None)) as Hs.
    { unfold startSKU, RunTransaction, startSKU_body, tx_Get, get_doc. simpl.
      rewrite Habs. simpl. unfold tx_writes, get_doc. simpl. by rewrite Habs. }
    split; [exact Hs|]. rewrite Hs. unfold counter. simpl.
    rewrite lookup_insert_eq. reflexivity.
  - intros s d n Hd Hn.
    unfold startSKU, RunTransaction, startSKU_body, tx_Get, get_doc. simpl.
    rewrite Hd. unfold DataAt. rewrite Hn. simpl. auto.
  - intros s d Hd Hn.
    assert (∃ e, startSKU quiet s = (s, Some e)) as [e He].
    { unfold startSKU, RunTransaction, startSKU_body, tx_Get, get_doc. simpl.
      rewrite Hd. unfold DataAt.
      destruct (d !! nextField) as [[| |n|]|] eqn:Hv; simpl; eauto.
      by destruct (Hn n). }
    exists e. split; [exact He|].
    intros project Hp. unfold NewClient. by rewrite decide_False.
Qed.

Lemma startSKU_seeds_keeps_or_fails_witness :
  NewClient "tutorial" None quiet empty_store = startSKU quiet empty_store ∧
  (startSKU quiet empty_store
     = ({| data := ∅; util := <[skuDoc := seed_doc]> ∅ |}, None) ∧
   counter (startSKU quiet empty_store).1 = Some (VInt 1000)) ∧
  (startSKU quiet seeded_spoon = (seeded_spoon, None) ∧
   tx_writes (startSKU_body () (begin seeded_spoon None)).1.2 = []) ∧
  ∃ e, startSKU quiet malformed = (malformed, Some e) ∧
       ∀ project, project ≠ EmptyString → NewClient project None quiet malformed = (malformed, Some e).
Proof.
  destruct startSKU_seeds_keeps_or_fails as (Hnew & Habsent & Hint & Hbad).
  split; [|split; [|split]].
  - by apply Hnew.
  - apply (Habsent empty_store). reflexivity.
  - apply (Hint seeded_spoon (<[nextField := VInt 1001]> ∅) 1001); vm_compute; reflexivity.
  - apply (Hbad malformed (<[nextField := VString "1000"]> ∅)).
    + vm_compute. reflexivity.
    + intros n. vm_compute. discriminate.
Defined.

(** ** Lookups *)

Lemma elem_of_docs_by_id s id d : (id, d) ∈ docs_by_id s ↔ data s !! id = Some d.
Proof.
  unfold docs_by_id. rewrite merge_sort_Permutation. apply elem_of_map_to_list.
Qed.

(** C7. With the store answering, [GetItem] of an identifier the item
    collection does not hold returns an error that wraps [ErrNotFound], and
    [GetItemBySKU] of a sequence number that no stored document carries
    returns an error that wraps [ErrNotFound]. *)
Theorem absent_is_ErrNotFound :
  (∀ s id, data s !! id = None →
           GetItem None s id = Err (ErrorWrap (id ++ ": ") ErrNotFound) ∧
           errors_Is (ErrorWrap (id ++ ": ") ErrNotFound) ErrNotFound = true) ∧
  (∀ s sku, (∀ id d, data s !! id = Some d → d !! "sku" ≠ Some (VInt sku)) →
            GetItemBySKU None s sku = Err (ErrorWrap ("sku " ++ Itoa sku ++ ": ") ErrNotFound) ∧
            errors_Is (ErrorWrap ("sku " ++ Itoa sku ++ ": ") ErrNotFound) ErrNotFound = true).
Proof.
  split.
  - intros s id Habs. split; [|reflexivity].
    unfold GetItem, doc_Get, get_doc. simpl. by rewrite Habs.
  - intros s sku Hnone. split; [|reflexivity].
    unfold GetItemBySKU, query_sku.
    destruct (filter _ (docs_by_id s)) as [|[id d] docs] eqn:Hf; [reflexivity|].
    assert ((id, d) ∈ filter (λ p : string * Doc, p.2 !! "sku" = Some (VInt sku)) (docs_by_id s))
      as Hin by (rewrite Hf; apply elem_of_cons; by left).
    apply list_elem_of_filter in Hin as [Hsku Hin]. apply elem_of_docs_by_id in Hin.
    by destruct (Hnone id d Hin).
Qed.

Lemma absent_is_ErrNotFound_witness :
  (GetItem None seeded_spoon "nonexistent" = Err (ErrorWrap "nonexistent: " ErrNotFound) ∧
   errors_Is (ErrorWrap "nonexistent: " ErrNotFound) ErrNotFound = true) ∧
  (GetItemBySKU None empty_store 999999 = Err (ErrorWrap "sku 999999: " ErrNotFound) ∧
   errors_Is (ErrorWrap "sku 999999: " ErrNotFound) ErrNotFound = true).
Proof.
  destruct absent_is_ErrNotFound as [Hget Hsku]. split.
  - apply (Hget seeded_spoon "nonexistent"). vm_compute. reflexivity.
  - apply (Hsku empty_store 999999). intros id d Hd. simpl in Hd.
    by rewrite lookup_empty in Hd.
Defined.

(** ** Delete *)

(** C8. With the store answering, [DeleteItem] returns [nil] for every
    identifier; deleting an identifier the store does not hold leaves the
    store as it is; and a second delete of the same identifier returns
    [nil] again and leaves the store as the first one left it. *)
Theorem DeleteItem_idempotent s id :
  (DeleteItem None s id).2 = None ∧
  (data s !! id = None → DeleteItem None s id = (s, None)) ∧
  DeleteItem None (DeleteItem None s id).1 id = ((DeleteItem None s id).1, None) ∧
  data (DeleteItem None s id).1 !! id = None.
Proof.
  unfold DeleteItem, doc_Delete. simpl. split; [reflexivity|]. split; [|split].
  - intros Habs. rewrite delete_id by assumption. by destruct s.
  - by rewrite delete_delete_eq.
  - apply lookup_delete_eq.
Qed.

Lemma DeleteItem_idempotent_witness :
  DeleteItem None seeded_spoon "nonexistent" = (seeded_spoon, None) ∧
  (DeleteItem None seeded_spoon "u1").2 = None ∧
  DeleteItem None (DeleteItem None seeded_spoon "u1").1 "u1"
    = ((DeleteItem None seeded_spoon "u1").1, None).
Proof.
  split; [|split].
  - apply (proj1 (proj2 (DeleteItem_idempotent seeded_spoon "nonexistent"))).
    vm_compute. reflexivity.
  - apply (DeleteItem_idempotent seeded_spoon "u1").
  - apply (DeleteItem_idempotent seeded_spoon "u1").
Defined.

(** ** Listing *)

Lemma ListItems_loop_spec docs : ∀ result logged,
  ListItems_loop docs result logged
  = ((result ++ decoded docs)%list, (logged ++ undecodable docs)%list).
Proof.
  induction docs as [|doc docs IH]; intros result logged; simpl.
  - by rewrite !app_nil_r.
  - unfold decoded, undecodable. simpl.
    destruct (DataTo doc.2) as [i|e]; rewrite IH; by rewrite <- app_assoc.
Qed.

(** C10. [ListItems] does not fail over a stored entry: for every scan
    result the loop returns the records of the entries that decode, in the
    order of the scan, and logs the identifiers of the others; with the
    store answering, the call returns these records with a [nil] error; and
    an error of [ListItems] is the error of the scan itself. *)
Theorem ListItems_skips_undecodable :
  (∀ docs, ListItems_loop docs [] [] = (decoded docs, undecodable docs)) ∧
  (∀ s, ListItems None s = (Ok (decoded (docs_by_id s)), undecodable (docs_by_id s))) ∧
  (∀ flt s e logged, ListItems flt s = (Err e, logged) →
                     ∃ c, flt = Some c ∧ e = StatusErr c ∧ logged = []).
Proof.
  split; [|split].
  - intros docs. by rewrite ListItems_loop_spec.
  - intros s. unfold ListItems, query_all. by rewrite ListItems_loop_spec.
  - intros flt s e logged. unfold ListItems, query_all.
    destruct flt as [c|].
    + intros [= <- <-]. by exists c.
    + rewrite ListItems_loop_spec. discriminate.
Qed.

Lemma ListItems_skips_undecodable_witness :
  ListItems None with_junk = (Ok [spork_a2; spoon_u1], ["junk"]) ∧
  ∃ c, Some Unavailable = Some c ∧ StatusErr Unavailable = StatusErr c ∧ @nil string = [].
Proof.
  destruct ListItems_skips_undecodable as (_ & Hlist & Herr). split.
  - rewrite (Hlist with_junk). vm_compute. reflexivity.
  - apply (Herr (Some Unavailable) with_junk (StatusErr Unavailable) []). reflexivity.
Defined.

(** ** Histories: the stored sequence numbers *)

Lemma docs_at_least_seed_insert s u id i :
  docs_at_least_seed s → startSKU_const ≤ Sku i →
  docs_at_least_seed {| data := <[id := encode i]> (data s); util := u |}.
Proof.
  intros Hs Hi id' d. simpl. rewrite lookup_insert. case_decide.
  - intros [= <-]. exists (Sku i). split; [apply encode_sku|assumption].
  - apply Hs.
Qed.

Lemma UpdateItem_cases fget fset s i :
  (UpdateItem fget fset s i).1 = s ∨
  (UpdateItem fget fset s i).1 = {| data := <[ID i := encode i]> (data s); util := util s |}.
Proof.
  unfold UpdateItem, doc_Get, doc_Set.
  destruct fget; simpl; [case_decide; by left|].
  destruct (get_doc s (Data, ID i)); simpl; [|by left].
  destruct fset; simpl; [by left|by right].
Qed.

Lemma DeleteItem_docs flt s id :
  docs_at_least_seed s → docs_at_least_seed (DeleteItem flt s id).1.
Proof.
  intros Hs. unfold DeleteItem, doc_Delete. destruct flt; simpl; [assumption|].
  intros id' d. simpl. rewrite lookup_delete. case_decide; [discriminate|]. apply Hs.
Qed.

Lemma run_docs calls : ∀ s n s' created,
  counter s = Some (VInt n) → startSKU_const ≤ n →
  n + Z.of_nat (length calls) ≤ max_int64 →
  docs_at_least_seed s → Forall keeps_seed calls →
  run calls s = Some (s', created) →
  docs_at_least_seed s'.
Proof.
  induction calls as [|c calls IH]; intros s n s' created Hn Hseed Hmax Hdocs Hcalls; simpl.
  - by intros [= <- <-].
  - simpl length in Hmax. apply Forall_cons in Hcalls as [Hc Hcalls].
    destruct c as [cycles i|fget fset i|flt id].
    + destruct (AddItem cycles s i) as [[[i1 s1] [id [e|]]]|] eqn:Ha; [| |discriminate].
      * apply AddItem_err in Ha as (-> & _). intros Hrun.
        by apply (IH s n s' created Hn Hseed ltac:(lia) Hdocs Hcalls).
      * destruct (AddItem_nil_counter _ _ _ _ _ _ Ha) as (n0 & Hn0 & Hsku & Hn1).
        assert (n0 = n) as -> by congruence.
        rewrite int_add_succ in Hn1 by (unfold min_int64, startSKU_const in *; lia).
        apply AddItem_nil in Ha as (n' & d & _ & _ & _ & _ & Hs1).
        destruct (run calls s1) as [[s2 created1]|] eqn:Hrun; [|discriminate].
        intros [= <- <-].
        apply (IH s1 (n + 1) s2 created1 Hn1 ltac:(lia) ltac:(lia)); [|assumption..].
        rewrite Hs1. apply docs_at_least_seed_insert; [assumption|lia].
    + intros Hrun.
      apply (IH _ n s' created
               ltac:(by rewrite (counter_util s _ (UpdateItem_util fget fset s i)))
               Hseed ltac:(lia)); [|assumption..].
      destruct (UpdateItem_cases fget fset s i) as [->| ->]; [assumption|].
      by apply docs_at_least_seed_insert.
    + intros Hrun.
      apply (IH _ n s' created
               ltac:(by rewrite (counter_util s _ (DeleteItem_util flt s id)))
               Hseed ltac:(lia)); [|assumption..].
      by apply DeleteItem_docs.
Qed.

(** C9, as stated, fails.  The store is seeded by [startSKU] and populated
    by one [AddItem], which assigns 1000; an [UpdateItem] of that record
    with a record whose sequence is 0 returns [nil], and the store then
    holds a record with sequence 0. *)
Lemma UpdateItem_writes_sequence_below_seed :
  startSKU quiet empty_store = (seeded, None) ∧
  ∃ s, run [CallAdd [turn "u1"] spoon; CallUpdate None None ladle_u1] seeded
         = Some (s, [spoon_u1]) ∧
       GetItem None s "u1" = Ok ladle_u1 ∧
       stored_sku s "u1" = Some (VInt 0) ∧
       ¬ (1000 ≤ Sku ladle_u1).
Proof.
  split; [vm_compute; reflexivity|].
  eexists. split; [vm_compute; reflexivity|].
  repeat split; try (vm_compute; reflexivity). vm_compute. by intros H; apply H.
Qed.

(** C9, amended.  From a store with no item and no counter, once
    [startSKU] has seeded the counter and as long as the counter stays in
    the range of [int], after any history of the layer's calls: every
    sequence number given by an [AddItem] that returned [nil] is at least
    1000, the counter is at least 1000, and, when no [UpdateItem] of the
    history supplied a sequence number below 1000, every stored record
    carries a sequence number that is at least 1000. *)
Theorem sequences_at_least_seed env s0 s1 calls s created :
  data s0 = ∅ → util s0 !! skuDoc = None →
  startSKU env s0 = (s1, None) →
  startSKU_const + Z.of_nat (length calls) ≤ max_int64 →
  run calls s1 = Some (s, created) →
  (∀ i, i ∈ created → 1000 ≤ Sku i) ∧
  (∃ n, counter s = Some (VInt n) ∧ 1000 ≤ n) ∧
  (Forall keeps_seed calls →
   ∀ id d, data s !! id = Some d → ∃ z, d !! "sku" = Some (VInt z) ∧ 1000 ≤ z).
Proof.
  intros Hempty Habs Hstart Hmax Hrun.
  destruct (startSKU_seeds _ _ _ Habs Hstart) as [Hseed Hdata].
  destruct (run_counter calls s1 _ s created Hseed
              ltac:(unfold min_int64, startSKU_const; lia) Hmax Hrun) as (Hc & Hcons & _).
  split; [|split].
  - intros i Hi. apply (consecutive_ge _ _ _ Hcons). by apply list_elem_of_fmap_2.
  - eexists. split; [exact Hc|]. unfold startSKU_const. lia.
  - intros Hcalls.
    apply (run_docs calls s1 startSKU_const s created Hseed ltac:(lia) Hmax); [|assumption..].
    intros id d. rewrite Hdata, Hempty, lookup_empty. discriminate.
Qed.

Lemma sequences_at_least_seed_witness :
  (∀ i, i ∈ [spoon_u1; spork_a2] → 1000 ≤ Sku i) ∧
  (∃ n, counter seeded_spoon_spork = Some (VInt n) ∧ 1000 ≤ n) ∧
  (∀ id d, data seeded_spoon_spork !! id = Some d →
           ∃ z, d !! "sku" = Some (VInt z) ∧ 1000 ≤ z).
Proof.
  destruct (sequences_at_least_seed quiet empty_store seeded spoon_then_spork
              seeded_spoon_spork [spoon_u1; spork_a2]) as (Hcreated & Hcounter & Hdocs).
  - reflexivity.
  - reflexivity.
  - vm_compute. reflexivity.
  - unfold startSKU_const, max_int64. simpl. lia.
  - vm_compute. reflexivity.
  - split; [exact Hcreated|]. split; [exact Hcounter|].
    apply Hdocs. repeat constructor.
Defined.

(** ** Stores written by the layer: facts *)

Lemma encode_inj i j : encode i = encode j → i = j.
Proof.
  intros He. assert (DataTo (encode i) = DataTo (encode j)) as Hd by (by rewrite He).
  rewrite !DataTo_encode in Hd. by injection Hd.
Qed.

Lemma GetItem_Ok_inv flt s id i :
  GetItem flt s id = Ok i → flt = None ∧ ∃ d, data s !! id = Some d ∧ DataTo d = Ok i.
Proof.
  unfold GetItem, doc_Get, get_doc. simpl.
  destruct flt as [c|]; [simpl; case_decide; discriminate|].
  destruct (data s !! id) as [d|]; [|simpl; discriminate].
  destruct (DataTo d) as [j|e] eqn:Hd; [|discriminate].
  intros [= ->]. split; [reflexivity|]. by exists d.
Qed.

Lemma GetItem_records_ok s id i :
  records_ok s → GetItem None s id = Ok i → data s !! id = Some (encode i) ∧ ID i = id.
Proof.
  intros Hok Hg. apply GetItem_Ok_inv in Hg as (_ & d & Hd & Hdec).
  destruct (Hok id d Hd) as (j & -> & Hid).
  rewrite DataTo_encode in Hdec. injection Hdec as <-. auto.
Qed.

Lemma store_inv_seeded env s0 s1 :
  data s0 = ∅ → util s0 !! skuDoc = None → startSKU env s0 = (s1, None) →
  store_inv s1 startSKU_const.
Proof.
  intros Hempty Habs Hstart.
  destruct (startSKU_seeds _ _ _ Habs Hstart) as [Hseed Hdata].
  split; [assumption|]. split; [lia|].
  split; [|split]; intros id; intros; rewrite Hdata, Hempty, lookup_empty in *; discriminate.
Qed.

Lemma store_inv_AddItem cycles s i i' s' id n :
  store_inv s n → n < max_int64 →
  AddItem cycles s i = Some (i', s', (id, None)) →
  store_inv s' (n + 1) ∧ Sku i' = n.
Proof.
  intros (Hn & Hseed & Hok & Huniq & Hbelow) Hmax Ha.
  assert (min_int64 ≤ n) as Hmin by (unfold min_int64, startSKU_const in *; lia).
  destruct (AddItem_nil_counter _ _ _ _ _ _ Ha) as (n0 & Hn0 & Hsku & Hn1).
  assert (n0 = n) as -> by congruence.
  rewrite int_add_succ in Hn1 by lia.
  apply AddItem_nil in Ha as (n' & d & _ & _ & Hi' & Hfree & Hs').
  assert (ID i' = id) as Hid by (by rewrite Hi').
  split; [|assumption]. split; [assumption|]. split; [lia|].
  rewrite Hs'. split; [|split].
  - intros id' d'. simpl. rewrite lookup_insert. case_decide.
    + intros He. apply (inj Some) in He. exists i'. by subst.
    + apply Hok.
  - intros id1 id2 i1 i2. simpl. rewrite !lookup_insert.
    destruct (decide (id = id1)) as [<-|Hne1], (decide (id = id2)) as [<-|Hne2];
      try done.
    + intros He H2 Heq. apply (inj Some), encode_inj in He. subst i1.
      specialize (Hbelow id2 i2 H2). lia.
    + intros H1 He Heq. apply (inj Some), encode_inj in He. subst i2.
      specialize (Hbelow id1 i1 H1). lia.
    + apply Huniq.
  - intros id' j. simpl. rewrite lookup_insert. case_decide.
    + intros He. apply (inj Some), encode_inj in He. subst j. lia.
    + intros Hj. specialize (Hbelow id' j Hj). lia.
Qed.

Lemma store_inv_DeleteItem flt s id n :
  store_inv s n → store_inv (DeleteItem flt s id).1 n.
Proof.
  intros (Hn & Hseed & Hok & Huniq & Hbelow).
  unfold DeleteItem, doc_Delete. destruct flt as [c|]; simpl; [by unfold store_inv|].
  split; [assumption|]. split; [assumption|]. split; [|split].
  - intros id' d. simpl. rewrite lookup_delete. case_decide; [discriminate|]. apply Hok.
  - intros id1 id2 i1 i2. simpl. rewrite !lookup_delete.
    repeat case_decide; try discriminate. apply Huniq.
  - intros id' j. simpl. rewrite lookup_delete. case_decide; [discriminate|]. apply Hbelow.
Qed.

Lemma run_store_inv calls : ∀ s n s' created,
  store_inv s n →
  n + Z.of_nat (length calls) ≤ max_int64 →
  Forall (λ c, ¬ is_update c) calls →
  run calls s = Some (s', created) →
  store_inv s' (n + Z.of_nat (length created)).
Proof.
  induction calls as [|c calls IH]; intros s n s' created Hinv Hmax Hcalls; simpl.
  - intros [= <- <-]. simpl. by rewrite Z.add_0_r.
  - simpl length in Hmax. apply Forall_cons in Hcalls as [Hc Hcalls].
    destruct c as [cycles i|fget fset i|flt id].
    + destruct (AddItem cycles s i) as [[[i1 s1] [id [e|]]]|] eqn:Ha; [| |discriminate].
      * apply AddItem_err in Ha as (-> & _). intros Hrun.
        apply (IH s n s' created Hinv ltac:(lia) Hcalls Hrun).
      * destruct (store_inv_AddItem _ _ _ _ _ _ _ Hinv ltac:(lia) Ha) as [Hinv1 _].
        destruct (run calls s1) as [[s2 created1]|] eqn:Hrun; [|discriminate].
        intros [= <- <-].
        pose proof (IH s1 (n + 1) s2 created1 Hinv1 ltac:(lia) Hcalls Hrun) as Hinv2.
        simpl length. by replace (n + Z.of_nat (S (length created1)))
          with (n + 1 + Z.of_nat (length created1)) by lia.
    + by destruct Hc.
    + intros Hrun.
      apply (IH _ n s' created (store_inv_DeleteItem flt s id n Hinv) ltac:(lia) Hcalls Hrun).
Qed.

Lemma store_inv_spoon_spork : store_inv seeded_spoon_spork 1002.
Proof.
  apply (run_store_inv spoon_then_spork seeded 1000 seeded_spoon_spork [spoon_u1; spork_a2]).
  - apply (store_inv_seeded quiet empty_store); by vm_compute.
  - unfold max_int64. simpl. lia.
  - repeat constructor; by intros [].
  - vm_compute. reflexivity.
Qed.

Lemma consecutive_lt l : ∀ n x, consecutive n l → x ∈ l → x < n + Z.of_nat (length l).
Proof.
  induction l as [|y l IH]; intros n x Hc Hx.
  - by apply elem_of_nil in Hx.
  - destruct Hc as [-> Hc]. simpl length. apply elem_of_cons in Hx as [->|Hx]; [lia|].
    specialize (IH _ _ Hc Hx). lia.
Qed.

Lemma consecutive_NoDup l : ∀ n, consecutive n l → NoDup l.
Proof.
  induction l as [|y l IH]; intros n Hc; [constructor|].
  destruct Hc as [-> Hc]. constructor; [|by apply (IH (n + 1))].
  intros Hin. pose proof (consecutive_ge _ _ _ Hc Hin). lia.
Qed.

(** X1. After a history of [AddItem] and [DeleteItem] calls on a store with
    no item that [startSKU] has seeded, every record [GetItem] returns
    carries the identifier it is stored under and a sequence number from
    1000 to below the counter, and no two stored records carry the same
    sequence number. *)
Theorem stored_sequences_pairwise_distinct env s0 s1 calls s created :
  data s0 = ∅ → util s0 !! skuDoc = None →
  startSKU env s0 = (s1, None) →
  Forall (λ c, ¬ is_update c) calls →
  startSKU_const + Z.of_nat (length calls) ≤ max_int64 →
  run calls s1 = Some (s, created) →
  counter s = Some (VInt (1000 + Z.of_nat (length created))) ∧
  (∀ id i, GetItem None s id = Ok i →
           ID i = id ∧ 1000 ≤ Sku i < 1000 + Z.of_nat (length created)) ∧
  (∀ id1 id2 i1 i2,
     GetItem None s id1 = Ok i1 → GetItem None s id2 = Ok i2 →
     Sku i1 = Sku i2 → id1 = id2 ∧ i1 = i2).
Proof.
  intros Hempty Habs Hstart Hcalls Hmax Hrun.
  pose proof (store_inv_seeded _ _ _ Hempty Habs Hstart) as Hinv.
  destruct (run_store_inv calls s1 _ s created Hinv Hmax Hcalls Hrun)
    as (Hn & _ & Hok & Huniq & Hbelow).
  split; [exact Hn|]. split.
  - intros id i Hg. destruct (GetItem_records_ok _ _ _ Hok Hg) as [Hd Hid].
    split; [assumption|]. apply (Hbelow id i Hd).
  - intros id1 id2 i1 i2 Hg1 Hg2 Hsku.
    destruct (GetItem_records_ok _ _ _ Hok Hg1) as [Hd1 _].
    destruct (GetItem_records_ok _ _ _ Hok Hg2) as [Hd2 _].
    pose proof (Huniq _ _ _ _ Hd1 Hd2 Hsku) as ->.
    split; [reflexivity|]. apply encode_inj. congruence.
Qed.

Lemma stored_sequences_pairwise_distinct_witness :
  counter seeded_spoon_spork = Some (VInt (1000 + Z.of_nat (length [spoon_u1; spork_a2]))) ∧
  (∀ id i, GetItem None seeded_spoon_spork id = Ok i →
           ID i = id ∧ 1000 ≤ Sku i < 1000 + Z.of_nat (length [spoon_u1; spork_a2])) ∧
  (∀ id1 id2 i1 i2,
     GetItem None seeded_spoon_spork id1 = Ok i1 →
     GetItem None seeded_spoon_spork id2 = Ok i2 →
     Sku i1 = Sku i2 → id1 = id2 ∧ i1 = i2).
Proof.
  apply (stored_sequences_pairwise_distinct quiet empty_store seeded spoon_then_spork).
  - reflexivity.
  - reflexivity.
  - vm_compute. reflexivity.
  - repeat constructor; by intros [].
  - unfold startSKU_const, max_int64. simpl. lia.
  - vm_compute. reflexivity.
Defined.

(** On a store of well formed records with pairwise distinct sequence
    numbers, the query for the sequence number of a stored record answers
    with the snapshot of that record first. *)
Lemma query_sku_head s id i :
  records_ok s → sku_unique s → data s !! id = Some (encode i) →
  ∃ docs, query_sku None s (Sku i) = Ok ((id, encode i) :: docs).
Proof.
  intros Hok Huniq Hd. unfold query_sku.
  assert ((id, encode i) ∈ filter (λ p : string * Doc, p.2 !! "sku" = Some (VInt (Sku i)))
                                  (docs_by_id s)) as Hin.
  { apply list_elem_of_filter. split; [apply encode_sku|]. by apply elem_of_docs_by_id. }
  destruct (filter _ (docs_by_id s)) as [|[id0 d0] docs] eqn:Hf.
  { by apply elem_of_nil in Hin. }
  assert ((id0, d0) ∈ filter (λ p : string * Doc, p.2 !! "sku" = Some (VInt (Sku i)))
                             (docs_by_id s)) as Hin0.
  { rewrite Hf. apply elem_of_cons. by left. }
  apply list_elem_of_filter in Hin0 as [Hsku Hd0]. apply elem_of_docs_by_id in Hd0.
  simpl in Hsku. destruct (Hok id0 d0 Hd0) as (j & -> & Hj).
  rewrite encode_sku in Hsku. injection Hsku as Hsku.
  pose proof (Huniq _ _ _ _ Hd0 Hd Hsku) as ->.
  exists docs. do 3 f_equal. congruence.
Qed.

(** X2. On a store whose records are well formed and pairwise distinct in
    their sequence numbers, looking a stored record up by its sequence
    number returns that record: [GetItemBySKU] of the sequence number of a
    record that [GetItem] returns is that record. *)
Theorem GetItemBySKU_finds_the_record s id i :
  records_ok s → sku_unique s →
  GetItem None s id = Ok i →
  GetItemBySKU None s (Sku i) = Ok i.
Proof.
  intros Hok Huniq Hg. destruct (GetItem_records_ok _ _ _ Hok Hg) as [Hd _].
  destruct (query_sku_head s id i Hok Huniq Hd) as [docs Hq].
  unfold GetItemBySKU. rewrite Hq. simpl.
  by rewrite DataTo_encode.
Qed.

Lemma GetItemBySKU_finds_the_record_witness :
  GetItemBySKU None seeded_spoon_spork (Sku spork_a2) = Ok spork_a2.
Proof.
  destruct store_inv_spoon_spork as (_ & _ & Hok & Huniq & _).
  apply (GetItemBySKU_finds_the_record seeded_spoon_spork "a2" spork_a2 Hok Huniq).
  vm_compute. reflexivity.
Defined.

(** X3. An [AddItem] that returns an identifier has stored the record
    under it: the identifier was free, [GetItem] of it now returns the
    record as the caller holds it (the name passed in, the identifier
    returned, the sequence number assigned), and [GetItem] of every other
    identifier answers as before. *)
Theorem AddItem_then_GetItem cycles s i i' s' id :
  AddItem cycles s i = Some (i', s', (id, None)) →
  data s !! id = None ∧
  GetItem None s' id = Ok i' ∧
  ID i' = id ∧ Name i' = Name i ∧ counter s = Some (VInt (Sku i')) ∧
  (∀ id', id' ≠ id → GetItem None s' id' = GetItem None s id').
Proof.
  intros Ha. apply AddItem_nil in Ha as (n & d & Hd & Hn & Hi' & Hfree & Hs').
  split; [assumption|]. split.
  { apply GetItem_stored. rewrite Hs'. simpl. apply lookup_insert_eq. }
  rewrite Hi'. simpl. repeat split.
  - rewrite counter_get_doc, Hd. assumption.
  - intros id' Hne. unfold GetItem, doc_Get, get_doc. rewrite Hs'. simpl.
    by rewrite lookup_insert_ne.
Qed.

Lemma AddItem_then_GetItem_witness :
  data seeded_spoon !! "a2" = None ∧
  GetItem None seeded_spoon_spork "a2" = Ok spork_a2 ∧
  ID spork_a2 = "a2" ∧ Name spork_a2 = Name spork ∧
  counter seeded_spoon = Some (VInt (Sku spork_a2)) ∧
  (∀ id', id' ≠ "a2" → GetItem None seeded_spoon_spork id' = GetItem None seeded_spoon id').
Proof.
  apply (AddItem_then_GetItem [turn "u1"; turn "a2"] seeded_spoon spork).
  vm_compute. reflexivity.
Defined.

(** X4. A sequence number is given once: along any history of the layer's
    calls, deletions and updates included, the records created carry
    pairwise distinct sequence numbers, all of them from the counter's
    value at the start to below its value at the end (as long as the
    counter stays in the range of [int]). *)
Theorem created_sequences_never_repeat calls s n s' created :
  counter s = Some (VInt n) → min_int64 ≤ n →
  n + Z.of_nat (length calls) ≤ max_int64 →
  run calls s = Some (s', created) →
  NoDup (Sku <$> created) ∧
  counter s' = Some (VInt (n + Z.of_nat (length created))) ∧
  (∀ i, i ∈ created → n ≤ Sku i < n + Z.of_nat (length created)).
Proof.
  intros Hn Hmin Hmax Hrun.
  destruct (run_counter calls s n s' created Hn Hmin Hmax Hrun) as (Hc & Hcons & _).
  split; [by apply (consecutive_NoDup _ n)|]. split; [assumption|].
  intros i Hi. apply (list_elem_of_fmap_2 Sku) in Hi. split.
  - by apply (consecutive_ge _ _ _ Hcons).
  - pose proof (consecutive_lt _ _ _ Hcons Hi) as Hlt. by rewrite length_fmap in Hlt.
Qed.

Lemma created_sequences_never_repeat_witness :
  NoDup (Sku <$> [spoon_u1; spork_u1]) ∧
  counter seeded_respork = Some (VInt (1000 + Z.of_nat (length [spoon_u1; spork_u1]))) ∧
  (∀ i, i ∈ [spoon_u1; spork_u1] →
        1000 ≤ Sku i < 1000 + Z.of_nat (length [spoon_u1; spork_u1])).
Proof.
  apply (created_sequences_never_repeat spoon_dropped_then_spork seeded 1000 seeded_respork).
  - vm_compute. reflexivity.
  - unfold min_int64. lia.
  - unfold max_int64. simpl. lia.
  - vm_compute. reflexivity.
Defined.

(** X5. Deleting the record an [AddItem] has just created puts the item
    collection back as it was, but not the counter: the sequence number
    stays spent. *)
Theorem DeleteItem_undoes_AddItem_but_not_the_counter cycles s i i' s' id n :
  AddItem cycles s i = Some (i', s', (id, None)) →
  counter s = Some (VInt n) → min_int64 ≤ n < max_int64 →
  data (DeleteItem None s' id).1 = data s ∧
  counter (DeleteItem None s' id).1 = Some (VInt (n + 1)) ∧
  Sku i' = n.
Proof.
  intros Ha Hn Hrange.
  destruct (AddItem_nil_counter _ _ _ _ _ _ Ha) as (n0 & Hn0 & Hsku & Hn1).
  assert (n0 = n) as -> by congruence.
  rewrite int_add_succ in Hn1 by assumption.
  apply AddItem_nil in Ha as (n' & d & _ & _ & _ & Hfree & Hs').
  split; [|split; [|assumption]].
  - rewrite Hs'. unfold DeleteItem, doc_Delete. simpl.
    rewrite delete_insert_eq. by apply delete_id.
  - rewrite <- Hn1. apply counter_util. apply DeleteItem_util.
Qed.

Lemma DeleteItem_undoes_AddItem_but_not_the_counter_witness :
  data (DeleteItem None seeded_spoon "u1").1 = data seeded ∧
  counter (DeleteItem None seeded_spoon "u1").1 = Some (VInt (1000 + 1)) ∧
  Sku spoon_u1 = 1000.
Proof.
  apply (DeleteItem_undoes_AddItem_but_not_the_counter [turn "u1"] seeded spoon spoon_u1
           seeded_spoon "u1" 1000).
  - vm_compute. reflexivity.
  - vm_compute. reflexivity.
  - unfold min_int64, max_int64. lia.
Defined.

(** X6. [UpdateItem] of an identifier the store does not hold returns an
    error that wraps [ErrNotFound] and creates nothing; whatever error
    [UpdateItem] returns, the store is as it was; and on a store of well
    formed records, writing back the record [GetItem] returned leaves the
    store exactly as it was. *)
Theorem UpdateItem_absent_or_failed_writes_nothing :
  (∀ fset s i, data s !! ID i = None →
               UpdateItem None fset s i = (s, Some (ErrorWrap (ID i ++ ": ") ErrNotFound))) ∧
  (∀ fget fset s i s' e, UpdateItem fget fset s i = (s', Some e) → s' = s) ∧
  (∀ s id i, records_ok s → GetItem None s id = Ok i →
             UpdateItem None None s i = (s, None)).
Proof.
  split; [|split].
  - intros fset s i Habs. unfold UpdateItem, doc_Get, get_doc. simpl. by rewrite Habs.
  - intros fget fset s i s' e. unfold UpdateItem, doc_Get, doc_Set.
    destruct fget as [c|]; simpl.
    { case_decide; by intros [= <- _]. }
    destruct (get_doc s (Data, ID i)); simpl; [|by intros [= <- _]].
    destruct fset; [by intros [= <- _]|discriminate].
  - intros s id i Hok Hg. destruct (GetItem_records_ok _ _ _ Hok Hg) as [Hd <-].
    unfold UpdateItem, doc_Get, doc_Set, get_doc, put_doc. simpl. rewrite Hd.
    rewrite insert_id by assumption. by destruct s.
Qed.

Lemma UpdateItem_absent_or_failed_writes_nothing_witness :
  UpdateItem None None seeded_spoon spork_a2
    = (seeded_spoon, Some (ErrorWrap "a2: " ErrNotFound)) ∧
  seeded_spoon = seeded_spoon ∧
  UpdateItem None None seeded_spoon_spork spork_a2 = (seeded_spoon_spork, None).
Proof.
  destruct UpdateItem_absent_or_failed_writes_nothing as (Habs & Herr & Hsame).
  split; [|split].
  - apply (Habs None seeded_spoon spork_a2). vm_compute. reflexivity.
  - apply (Herr None (Some Unavailable) seeded_spoon spoon_u1 seeded_spoon
                (StatusErr Unavailable)).
    vm_compute. reflexivity.
  - destruct store_inv_spoon_spork as (_ & _ & Hok & _).
    apply (Hsame seeded_spoon_spork "a2" spork_a2 Hok). vm_compute. reflexivity.
Defined.

(** ** Client construction: facts *)

Lemma startSKU_err env s s' e : startSKU env s = (s', Some e) → s' = s.
Proof.
  unfold startSKU.
  destruct (RunTransaction startSKU_body env s ()) as [[u s2] r] eqn:Hrun.
  intros [= -> ->]. by apply RunTransaction_err in Hrun.
Qed.

Lemma startSKU_quiet_int s d n :
  util s !! skuDoc = Some d → d !! nextField = Some (VInt n) →
  startSKU quiet s = (s, None).
Proof.
  intros Hd Hn.
  unfold startSKU, RunTransaction, startSKU_body, tx_Get, get_doc. simpl.
  rewrite Hd. unfold DataAt. by rewrite Hn.
Qed.

(** What [startSKU] can do to a store: nothing, or add the seeded counter
    document where there was none. *)
Lemma startSKU_cases env s s' r :
  startSKU env s = (s', r) →
  s' = s ∨ (util s !! skuDoc = None ∧ r = None ∧
            s' = {| data := data s; util := <[skuDoc := seed_doc]> (util s) |}).
Proof.
  destruct r as [e|]; intros Hs.
  - left. by apply startSKU_err in Hs.
  - apply startSKU_nil in Hs. change (get_doc s seqRef) with (util s !! skuDoc) in Hs.
    destruct (util s !! skuDoc); [left; by destruct Hs|right; auto].
Qed.

(** X7. [NewClient] without a project identifier fails before it reaches
    the store.  Whatever it returns, [NewClient] leaves the item collection
    and every other utility document alone and never rewrites a counter
    document that exists.  After a [NewClient] that returned no error the
    counter holds an integer, and a second [NewClient] on that store
    returns no error and changes nothing. *)
Theorem NewClient_touches_only_a_missing_counter :
  (∀ dial env s, NewClient EmptyString dial env s = (s, Some (ErrorNew "no projectID"))) ∧
  (∀ project dial env s s' r,
     NewClient project dial env s = (s', r) →
     data s' = data s ∧
     (∀ k, k ≠ skuDoc → util s' !! k = util s !! k) ∧
     (is_Some (util s !! skuDoc) → s' = s)) ∧
  (∀ project dial env s s',
     NewClient project dial env s = (s', None) →
     (∃ n, counter s' = Some (VInt n)) ∧
     NewClient project None quiet s' = (s', None)).
Proof.
  split; [|split].
  - intros dial env s. reflexivity.
  - intros project dial env s s' r. unfold NewClient.
    case_decide; [by intros [= <- _]|].
    destruct dial as [c|]; [by intros [= <- _]|].
    intros Hs. apply startSKU_cases in Hs as [->|(Habs & _ & ->)]; [done|].
    simpl. split; [reflexivity|]. split.
    + intros k Hk. by rewrite lookup_insert_ne.
    + rewrite Habs. by intros [? ?].
  - intros project dial env s s'. unfold NewClient.
    case_decide as Hp; [discriminate|].
    destruct dial as [c|]; [discriminate|].
    intros Hs. apply startSKU_nil in Hs.
    change (get_doc s seqRef) with (util s !! skuDoc) in Hs.
    destruct (util s !! skuDoc) as [d|] eqn:Hd.
    + destruct Hs as [-> [n Hn]]. split.
      * exists n. unfold counter. by rewrite Hd.
      * by apply (startSKU_quiet_int s d n).
    + subst s'. split.
      * exists startSKU_const. rewrite counter_get_doc, get_put_eq. reflexivity.
      * apply (startSKU_quiet_int _ seed_doc startSKU_const); [|reflexivity].
        simpl. apply lookup_insert_eq.
Qed.

Lemma NewClient_touches_only_a_missing_counter_witness :
  (data seeded = data empty_store ∧
   (∀ k, k ≠ skuDoc → util seeded !! k = util empty_store !! k) ∧
   (is_Some (util empty_store !! skuDoc) → seeded = empty_store)) ∧
  ((∃ n, counter seeded = Some (VInt n)) ∧
   NewClient "tutor-dev" None quiet seeded = (seeded, None)).
Proof.
  destruct NewClient_touches_only_a_missing_counter as (_ & Hframe & Hagain). split.
  - apply (Hframe "tutor-dev" None quiet empty_store seeded None). vm_compute. reflexivity.
  - apply (Hagain "tutor-dev" None quiet empty_store seeded). vm_compute. reflexivity.
Defined.

(** X8. On a store whose counter is missing or does not hold an integer,
    [AddItem] fails in its first turn: it returns the error of reading the
    counter (the store's [NotFound] when the counter document is missing),
    runs no further turn and stores nothing. *)
Theorem AddItem_without_counter_fails_at_once id cycles s i :
  (∀ n, counter s ≠ Some (VInt n)) →
  ∃ e, AddItem (turn id :: cycles) s i = Some (set_ID i id, s, (EmptyString, Some e)) ∧
       status_Code e ≠ AlreadyExists ∧
       (util s !! skuDoc = None → e = StatusErr NotFound).
Proof.
  intros Hbad. rewrite counter_get_doc in Hbad.
  change (util s !! skuDoc) with (get_doc s seqRef).
  unfold AddItem, create, RunTransaction, turn, quiet. simpl.
  unfold create_body. rewrite getNext_begin. cbv zeta.
  destruct (get_doc s seqRef) as [d|].
  - destruct (d !! nextField) as [[| |n|]|]; simpl;
      try (eexists; split; [reflexivity|]; split; [discriminate|discriminate]).
    by destruct (Hbad n).
  - simpl. eexists. split; [reflexivity|]. split; [discriminate|reflexivity].
Qed.

Lemma AddItem_without_counter_fails_at_once_witness :
  ∃ e, AddItem [turn "u1"; turn "a2"] empty_store spoon
         = Some (set_ID spoon "u1", empty_store, (EmptyString, Some e)) ∧
       status_Code e ≠ AlreadyExists ∧
       (util empty_store !! skuDoc = None → e = StatusErr NotFound).
Proof.
  apply (AddItem_without_counter_fails_at_once "u1" [turn "a2"] empty_store spoon).
  intros n. vm_compute. discriminate.
Defined.

Lemma errors_Is_unfold e target :
  errors_Is e target =
  if decide (e = target) then true
  else match e with
       | ErrorWrap _ inner => errors_Is inner target
       | _ => false
       end.
Proof. by destruct e. Qed.

Lemma errors_Is_refl e : errors_Is e e = true.
Proof. rewrite errors_Is_unfold. by rewrite decide_True. Qed.

Lemma errors_Is_wrap msg e target :
  errors_Is e target = true → errors_Is (ErrorWrap msg e) target = true.
Proof. intros He. rewrite errors_Is_unfold. by case_decide. Qed.

(** X9. [GetItem] reports not-found exactly when the store says so: an
    error it returns wraps [ErrNotFound] if and only if the lookup answered
    [NotFound]; a lookup that failed otherwise is returned wrapped, so that
    [errors.Is] still finds the store's error; and a document that does not
    decode is an error, not a record. *)
Theorem GetItem_error_kinds :
  (∀ flt s id e,
     GetItem flt s id = Err e →
     (errors_Is e ErrNotFound = true ↔
      flt = Some NotFound ∨ (flt = None ∧ data s !! id = None))) ∧
  (∀ c s id, c ≠ NotFound →
             ∃ e, GetItem (Some c) s id = Err e ∧ errors_Is e (StatusErr c) = true) ∧
  (∀ s id d, data s !! id = Some d → DataTo d = Err errDecode →
             ∃ e, GetItem None s id = Err e ∧ errors_Is e errDecode = true).
Proof.
  split; [|split].
  - intros flt s id e. unfold GetItem, doc_Get, get_doc. simpl.
    destruct flt as [c|].
    + simpl. case_decide as Hc.
      * intros [= <-]. split; [left; by subst|reflexivity].
      * intros [= <-]. split; [discriminate|]. intros [[= ->]|[? _]]; done.
    + destruct (data s !! id) as [d|]; simpl.
      * destruct (DataTo d) as [i|e0] eqn:Hd; [discriminate|].
        unfold DataTo in Hd.
        assert (e0 = errDecode) as -> by (repeat case_match; congruence).
        intros [= <-]. split; [discriminate|]. intros [|[_ ?]]; discriminate.
      * intros [= <-]. split; [auto|reflexivity].
  - intros c s id Hc. unfold GetItem, doc_Get. simpl. rewrite decide_False by assumption.
    eexists. split; [reflexivity|]. apply errors_Is_wrap, errors_Is_refl.
  - intros s id d Hd Hdec. unfold GetItem, doc_Get, get_doc. simpl. rewrite Hd, Hdec.
    eexists. split; reflexivity.
Qed.

Lemma GetItem_error_kinds_witness :
  (errors_Is (ErrorWrap "junk: " ErrNotFound) ErrNotFound = true ↔
   Some NotFound = Some NotFound ∨ (Some NotFound = None ∧ data with_junk !! "junk" = None)) ∧
  (∃ e, GetItem (Some Unavailable) with_junk "u1" = Err e ∧
        errors_Is e (StatusErr Unavailable) = true) ∧
  (∃ e, GetItem None with_junk "junk" = Err e ∧ errors_Is e errDecode = true).
Proof.
  destruct GetItem_error_kinds as (Hiff & Hfault & Hjunk).
  split; [|split].
  - apply (Hiff (Some NotFound) with_junk "junk"). vm_compute. reflexivity.
  - apply (Hfault Unavailable with_junk "u1"). discriminate.
  - apply (Hjunk with_junk "junk" (<["sku" := VString "twelve"]> ∅)); vm_compute; reflexivity.
Defined.

(** ** Scans of a store of well formed records *)

Lemma elem_of_decoded docs i : i ∈ decoded docs ↔ ∃ p, p ∈ docs ∧ DataTo p.2 = Ok i.
Proof.
  unfold decoded. rewrite list_elem_of_omap. split.
  - intros (p & Hp & Hd). exists p. split; [assumption|].
    destruct (DataTo p.2); congruence.
  - intros (p & Hp & Hd). exists p. split; [assumption|]. by rewrite Hd.
Qed.

Lemma decoded_cons_ok p docs i :
  DataTo p.2 = Ok i →
  decoded (p :: docs) = i :: decoded docs ∧ undecodable (p :: docs) = undecodable docs.
Proof. intros Hd. unfold decoded, undecodable. simpl. by rewrite Hd. Qed.

(** A list of snapshots of well formed records is the list of the
    snapshots of its decoded records, and nothing in it is undecodable. *)
Lemma decoded_snapshots s docs :
  records_ok s → (∀ id d, (id, d) ∈ docs → data s !! id = Some d) →
  docs = snapshot_of <$> decoded docs ∧ undecodable docs = [].
Proof.
  intros Hok. induction docs as [|[id d] docs IH]; intros Hin; [done|].
  destruct (Hok id d) as (i & -> & <-).
  { apply Hin, elem_of_cons. by left. }
  destruct IH as [IH1 IH2].
  { intros id' d' H'. apply Hin, elem_of_cons. by right. }
  destruct (decoded_cons_ok (ID i, encode i) docs i (DataTo_encode i)) as [-> ->].
  split; [|assumption]. rewrite fmap_cons. by rewrite <- IH1.
Qed.

Lemma Sorted_snapshots items :
  Sorted id_le (snapshot_of <$> items) → Sorted ID_le items.
Proof.
  induction items as [|i items IH]; [constructor|].
  rewrite fmap_cons. intros Hs. apply Sorted_inv in Hs as [Hs Hhd].
  constructor; [by apply IH|].
  destruct items as [|j items]; [constructor|].
  rewrite fmap_cons in Hhd. apply HdRel_inv in Hhd. by constructor.
Qed.

#[local] Instance id_le_total : Total id_le.
Proof. intros p q. unfold id_le. apply String.leb_total. Qed.

Lemma NoDup_docs_by_id s : NoDup (docs_by_id s).*1.
Proof. unfold docs_by_id. rewrite merge_sort_Permutation. apply NoDup_fst_map_to_list. Qed.

(** On a store of well formed records the scan of [ListItems] decodes
    every snapshot, to exactly the stored records. *)
Lemma ListItems_records_ok s :
  records_ok s →
  ListItems None s = (Ok (decoded (docs_by_id s)), []) ∧
  docs_by_id s = snapshot_of <$> decoded (docs_by_id s) ∧
  ∀ i, i ∈ decoded (docs_by_id s) ↔ data s !! ID i = Some (encode i).
Proof.
  intros Hok.
  destruct (decoded_snapshots s (docs_by_id s) Hok) as [Hdocs Hnone].
  { intros id d. apply elem_of_docs_by_id. }
  split; [|split; [assumption|]].
  - unfold ListItems, query_all. by rewrite ListItems_loop_spec, Hnone.
  - intros i. rewrite <- elem_of_docs_by_id. rewrite Hdocs at 2.
    rewrite list_elem_of_fmap. split.
    + intros Hi. by exists i.
    + intros (j & Hj & Hin). unfold snapshot_of in Hj.
      assert (i = j) as -> by (apply encode_inj; congruence). assumption.
Qed.

(** X10. On a store of well formed records [ListItems] returns every
    stored record exactly once, in ascending order of the identifiers, and
    logs nothing. *)
Theorem ListItems_lists_every_record_in_order s :
  records_ok s →
  ∃ items,
    ListItems None s = (Ok items, []) ∧
    (∀ i, i ∈ items ↔ data s !! ID i = Some (encode i)) ∧
    NoDup (ID <$> items) ∧
    Sorted ID_le items ∧
    length items = size (data s).
Proof.
  intros Hok. exists (decoded (docs_by_id s)).
  destruct (ListItems_records_ok s Hok) as (Hlist & Hdocs & Hmem).
  assert (ID <$> decoded (docs_by_id s) = (docs_by_id s).*1) as Hids.
  { rewrite Hdocs at 2. rewrite <- list_fmap_compose. reflexivity. }
  split; [assumption|]. split; [assumption|]. split; [|split].
  - rewrite Hids. apply NoDup_docs_by_id.
  - apply Sorted_snapshots. rewrite <- Hdocs. unfold docs_by_id. apply Sorted_merge_sort, _.
  - rewrite <- (length_fmap ID), Hids, length_fmap.
    unfold docs_by_id. rewrite merge_sort_Permutation. apply length_map_to_list.
Qed.

Lemma ListItems_lists_every_record_in_order_witness :
  ∃ items,
    ListItems None seeded_spoon_spork = (Ok items, []) ∧
    (∀ i, i ∈ items ↔ data seeded_spoon_spork !! ID i = Some (encode i)) ∧
    NoDup (ID <$> items) ∧
    Sorted ID_le items ∧
    length items = size (data seeded_spoon_spork).
Proof.
  apply (ListItems_lists_every_record_in_order seeded_spoon_spork).
  by destruct store_inv_spoon_spork as (_ & _ & Hok & _).
Defined.

(** ** The sequence index: facts *)

Lemma ListSKUs_loop_spec docs : ∀ result logged,
  ListSKUs_loop docs result logged
  = (foldl (λ m i, <[Itoa (Sku i) := ID i]> m) result (decoded docs),
     (logged ++ undecodable docs)%list).
Proof.
  induction docs as [|doc docs IH]; intros result logged; simpl.
  - by rewrite app_nil_r.
  - unfold decoded, undecodable. simpl.
    destruct (DataTo doc.2) as [i|e]; rewrite IH; [reflexivity|].
    by rewrite <- app_assoc.
Qed.

(** A key of the index comes from a record of the list, or was there
    before. *)
Lemma index_lookup_sound items : ∀ (m : gmap string string) k id,
  foldl (λ m i, <[Itoa (Sku i) := ID i]> m) m items !! k = Some id →
  (∃ i, i ∈ items ∧ k = Itoa (Sku i) ∧ id = ID i) ∨ m !! k = Some id.
Proof.
  induction items as [|j items IH]; intros m k id; simpl; [auto|].
  intros Hl. apply IH in Hl as [(i & Hi & Hk & Hid)|Hl].
  - left. exists i. split; [apply elem_of_cons; by right|auto].
  - rewrite lookup_insert in Hl. case_decide as Hk.
    + injection Hl as <-. left. exists j. split; [apply elem_of_cons; by left|auto].
    + by right.
Qed.

Lemma index_lookup_other items : ∀ (m : gmap string string) k,
  (∀ i, i ∈ items → Itoa (Sku i) ≠ k) →
  foldl (λ m i, <[Itoa (Sku i) := ID i]> m) m items !! k = m !! k.
Proof.
  induction items as [|j items IH]; intros m k Hk; simpl; [reflexivity|].
  rewrite IH.
  - apply lookup_insert_ne, Hk, elem_of_cons. by left.
  - intros i Hi. apply Hk, elem_of_cons. by right.
Qed.

(** With pairwise distinct sequence numbers every record of the list is in
    the index. *)
Lemma index_lookup_complete items : ∀ (m : gmap string string) i,
  NoDup (Sku <$> items) → i ∈ items →
  foldl (λ m i, <[Itoa (Sku i) := ID i]> m) m items !! Itoa (Sku i) = Some (ID i).
Proof.
  induction items as [|j items IH]; intros m i Hnd Hi; [by apply elem_of_nil in Hi|].
  rewrite fmap_cons in Hnd. apply NoDup_cons in Hnd as [Hj Hnd].
  simpl. apply elem_of_cons in Hi as [->|Hi]; [|by apply IH].
  rewrite index_lookup_other; [apply lookup_insert_eq|].
  intros i Hi Heq. apply (inj pretty) in Heq.
  apply Hj. rewrite <- Heq. by apply list_elem_of_fmap_2.
Qed.

Lemma elem_of_docs_by_sku s id d :
  (id, d) ∈ docs_by_sku s ↔ data s !! id = Some d ∧ is_Some (d !! "sku").
Proof.
  unfold docs_by_sku. rewrite merge_sort_Permutation, list_elem_of_filter.
  rewrite elem_of_map_to_list. simpl. tauto.
Qed.

Lemma NoDup_docs_by_sku s : NoDup (docs_by_sku s).*1.
Proof.
  apply NoDup_fmap_fst.
  - intros id d1 d2 [H1 _]%elem_of_docs_by_sku [H2 _]%elem_of_docs_by_sku. congruence.
  - unfold docs_by_sku. rewrite merge_sort_Permutation.
    apply NoDup_filter, NoDup_map_to_list.
Qed.

(** X11. [ListSKUs] does not fail over a stored entry: with the store
    answering it returns the index of the records that decode among the
    documents that have a sequence field, and logs the others; every entry
    of the index is the sequence number and the identifier of a stored
    document that decodes.  On a store of well formed records with
    pairwise distinct sequence numbers the index is exact: a decimal maps
    to an identifier if and only if the record stored under the identifier
    carries that sequence number. *)
Theorem ListSKUs_indexes_the_records :
  (∀ s, ListSKUs None s = (Ok (sku_index (decoded (docs_by_sku s))),
                          undecodable (docs_by_sku s))) ∧
  (∀ s m logged k id,
     ListSKUs None s = (Ok m, logged) → m !! k = Some id →
     ∃ key d i, data s !! key = Some d ∧ DataTo d = Ok i ∧
                k = Itoa (Sku i) ∧ id = ID i) ∧
  (∀ s, records_ok s → sku_unique s →
        ∃ m, ListSKUs None s = (Ok m, []) ∧
             ∀ k id, m !! k = Some id ↔
                     ∃ i, data s !! id = Some (encode i) ∧ k = Itoa (Sku i)).
Proof.
  assert (∀ s, ListSKUs None s = (Ok (sku_index (decoded (docs_by_sku s))),
                                  undecodable (docs_by_sku s))) as Hspec.
  { intros s. unfold ListSKUs, query_by_sku. by rewrite ListSKUs_loop_spec. }
  split; [exact Hspec|]. split.
  - intros s m logged k id. rewrite Hspec. intros [= <- _] Hl.
    apply index_lookup_sound in Hl as [(i & Hi & Hk & Hid)|Hl];
      [|by rewrite lookup_empty in Hl].
    apply elem_of_decoded in Hi as ([key d] & Hin & Hd).
    apply elem_of_docs_by_sku in Hin as [Hin _]. by exists key, d, i.
  - intros s Hok Huniq. exists (sku_index (decoded (docs_by_sku s))).
    destruct (decoded_snapshots s (docs_by_sku s) Hok) as [Hdocs Hnone].
    { intros id d Hin. by apply elem_of_docs_by_sku in Hin as [Hin _]. }
    assert (∀ i, i ∈ decoded (docs_by_sku s) ↔ data s !! ID i = Some (encode i)) as Hmem.
    { intros i. split.
      - intros Hi. apply (list_elem_of_fmap_2 snapshot_of) in Hi. rewrite <- Hdocs in Hi.
        by apply elem_of_docs_by_sku in Hi as [Hi _].
      - intros Hi. assert (snapshot_of i ∈ docs_by_sku s) as Hin.
        { apply elem_of_docs_by_sku. split; [assumption|]. rewrite encode_sku. by eexists. }
        rewrite Hdocs in Hin. apply list_elem_of_fmap in Hin as (j & Hj & Hin).
        unfold snapshot_of in Hj.
        assert (i = j) as -> by (apply encode_inj; congruence). assumption. }
    assert (NoDup (Sku <$> decoded (docs_by_sku s))) as Hnd.
    { apply NoDup_fmap_2_strong.
      - intros i j Hi Hj Hsku. apply Hmem in Hi, Hj.
        pose proof (Huniq _ _ _ _ Hi Hj Hsku) as Hid.
        apply encode_inj. congruence.
      - apply (NoDup_fmap_1 ID). pose proof (NoDup_docs_by_sku s) as Hk.
        rewrite Hdocs in Hk at 1. by rewrite <- list_fmap_compose in Hk. }
    split; [by rewrite Hspec, Hnone|].
    intros k id. split.
    + intros Hl. apply index_lookup_sound in Hl as [(i & Hi & Hk & Hid)|Hl];
        [|by rewrite lookup_empty in Hl].
      exists i. apply Hmem in Hi. by subst.
    + intros (i & Hi & ->). destruct (Hok id _ Hi) as (j & Hj & Hid).
      apply encode_inj in Hj. subst j. rewrite <- Hid in Hi |- *.
      apply index_lookup_complete; [assumption|]. by apply Hmem.
Qed.

Lemma ListSKUs_indexes_the_records_witness :
  (∃ key d i, data with_junk !! key = Some d ∧ DataTo d = Ok i ∧
              "1001" = Itoa (Sku i) ∧ "a2" = ID i) ∧
  ∃ m, ListSKUs None seeded_spoon_spork = (Ok m, []) ∧
       ∀ k id, m !! k = Some id ↔
               ∃ i, data seeded_spoon_spork !! id = Some (encode i) ∧ k = Itoa (Sku i).
Proof.
  destruct ListSKUs_indexes_the_records as (_ & Hsound & Hexact). split.
  - apply (Hsound with_junk (<["1000" := "u1"]> (<["1001" := "a2"]> ∅)) ["junk"]).
    + vm_compute. reflexivity.
    + vm_compute. reflexivity.
  - destruct store_inv_spoon_spork as (_ & _ & Hok & Huniq & _).
    by apply (Hexact seeded_spoon_spork).
Defined.

(** ** The GraphQL resolvers: facts *)

(** X12. [CreateItem] without a name fails before it draws an identifier
    or reaches the store.  A [CreateItem] that fails leaves the store as it
    was.  On a store the layer alone has written, a [CreateItem] that
    returns a record has stored it with the given name and the counter's
    value as its sequence number, the [Item] query of that number returns
    the record, the [Items] query lists it, and the store is again one the
    layer alone has written, its counter one further. *)
Theorem CreateItem_then_query :
  (∀ cycles s, CreateItem cycles s EmptyString = Some (s, Err (ErrorNew "no name"))) ∧
  (∀ cycles s name s' e, CreateItem cycles s name = Some (s', Err e) → s' = s) ∧
  (∀ cycles s name s' item n,
     store_inv s n → n < max_int64 →
     CreateItem cycles s name = Some (s', Ok item) →
     Name item = name ∧ Sku item = n ∧ data s !! ID item = None ∧
     GetItem None s' (ID item) = Ok item ∧
     Item_by_sku None s' n = Ok item ∧
     (∃ items, Items None s' = Ok items ∧ item ∈ items) ∧
     store_inv s' (n + 1)).
Proof.
  split; [|split].
  - intros cycles s. reflexivity.
  - intros cycles s name s' e. unfold CreateItem. case_decide; [by intros [= <- _]|].
    destruct (AddItem cycles s _) as [[[i1 s1] [id [e1|]]]|] eqn:Ha; [|discriminate..].
    intros [= <- _]. by apply AddItem_err in Ha as (-> & _).
  - intros cycles s name s' item n Hinv Hmax. unfold CreateItem.
    case_decide; [discriminate|].
    destruct (AddItem cycles s _) as [[[i1 s1] [id [e1|]]]|] eqn:Ha; [discriminate| |discriminate].
    intros [= <- <-].
    destruct (store_inv_AddItem _ _ _ _ _ _ _ Hinv Hmax Ha) as [Hinv1 Hsku].
    pose proof Ha as Hnil.
    apply AddItem_nil in Hnil as (n' & d & _ & _ & Hi1 & Hfree & Hs1).
    assert (ID i1 = id) as Hid by (by rewrite Hi1).
    assert (Name i1 = name) as Hname by (by rewrite Hi1).
    assert (data s1 !! id = Some (encode i1)) as Hd1.
    { rewrite Hs1. simpl. apply lookup_insert_eq. }
    destruct Hinv1 as (Hn1 & Hseed1 & Hok1 & Huniq1 & Hbelow1).
    rewrite Hid. split; [assumption|]. split; [assumption|]. split; [assumption|].
    split; [by apply GetItem_stored|]. split; [|split].
    + unfold Item_by_sku, GetItemBySKU. rewrite <- Hsku.
      destruct (query_sku_head s1 id i1 Hok1 Huniq1 Hd1) as [docs ->]. simpl.
      by rewrite DataTo_encode.
    + destruct (ListItems_records_ok s1 Hok1) as (Hl & _ & Hmem).
      exists (decoded (docs_by_id s1)). unfold Items. rewrite Hl. split; [reflexivity|].
      apply Hmem. by rewrite Hid.
    + exact (conj Hn1 (conj Hseed1 (conj Hok1 (conj Huniq1 Hbelow1)))).
Qed.

Lemma store_inv_spoon : store_inv seeded_spoon 1001.
Proof.
  apply (run_store_inv [CallAdd [turn "u1"] spoon] seeded 1000 seeded_spoon [spoon_u1]).
  - apply (store_inv_seeded quiet empty_store); by vm_compute.
  - unfold max_int64. simpl. lia.
  - repeat constructor; by intros [].
  - vm_compute. reflexivity.
Qed.

Lemma CreateItem_then_query_witness :
  empty_store = empty_store ∧
  (Name spork_a2 = "spork" ∧ Sku spork_a2 = 1001 ∧ data seeded_spoon !! ID spork_a2 = None ∧
   GetItem None seeded_spoon_spork (ID spork_a2) = Ok spork_a2 ∧
   Item_by_sku None seeded_spoon_spork 1001 = Ok spork_a2 ∧
   (∃ items, Items None seeded_spoon_spork = Ok items ∧ spork_a2 ∈ items) ∧
   store_inv seeded_spoon_spork (1001 + 1)).
Proof.
  destruct CreateItem_then_query as (_ & Hfail & Hok). split.
  - apply (Hfail [turn "u1"] empty_store "spoon" empty_store (StatusErr NotFound)).
    vm_compute. reflexivity.
  - apply (Hok [turn "u1"; turn "a2"] seeded_spoon "spork" seeded_spoon_spork spork_a2 1001).
    + apply store_inv_spoon.
    + unfold max_int64. lia.
    + vm_compute. reflexivity.
Defined.

(** ** The HTTP handlers: facts *)

Lemma string_app_assoc (a b c : string) : (a ++ b) ++ c = a ++ (b ++ c).
Proof.
  induction a as [|x a IH]; [reflexivity|].
  change (String x ((a ++ b) ++ c) = String x (a ++ (b ++ c))). by rewrite IH.
Qed.

Lemma http_Error_fresh text code w :
  wrote w = None →
  status_sent (http_Error text code w) = code ∧
  body (http_Error text code w) = body w ++ text ++ newline ∧
  headers_sent (http_Error text code w)
  = <["X-Content-Type-Options" := "nosniff"]>
      (<["Content-Type" := "text/plain; charset=utf-8"]> (delete "Content-Length" (header w))).
Proof.
  intros Hw. unfold http_Error, Fprintln, w_Write, WriteHeader, Header_Set, Header_Del,
    status_sent, headers_sent. simpl. rewrite Hw. simpl. auto.
Qed.

Lemma write_json_fresh tx text w :
  wrote w = None →
  status_sent (write_json tx None text w) = StatusOK ∧
  body (write_json tx None text w) = body w ++ text ∧
  headers_sent (write_json tx None text w) = <["Content-Type" := "application/json"]> (header w).
Proof.
  intros Hw. unfold write_json, Encode, w_Write, WriteHeader, Header_Set,
    status_sent, headers_sent. simpl. rewrite Hw. simpl. auto.
Qed.

Lemma write_json_status tx enc text w :
  wrote w = None →
  status_sent (write_json tx enc text w)
  = match enc with None => StatusOK | Some _ => StatusInternalServerError end.
Proof.
  intros Hw. destruct enc as [e|]; [|by apply write_json_fresh].
  unfold write_json, Encode, Fprintln, w_Write, WriteHeader, Header_Set, status_sent.
  simpl. rewrite Hw. simpl. reflexivity.
Qed.

Lemma write_db_error_status tx err w :
  wrote w = None →
  status_sent (write_db_error tx err w)
  = (if errors_Is err ErrNotFound then StatusNotFound else StatusInternalServerError) ∧
  body (write_db_error tx err w) = body w ++ Error tx err ++ newline.
Proof.
  intros Hw. unfold write_db_error.
  destruct (errors_Is err ErrNotFound);
    destruct (http_Error_fresh (Error tx err) StatusNotFound w Hw) as (? & ? & _);
    destruct (http_Error_fresh (Error tx err) StatusInternalServerError w Hw) as (? & ? & _);
    auto.
Qed.

(** The errors of [GetItem] that wrap [ErrNotFound]. *)
Lemma GetItem_err_NotFound flt s id e :
  GetItem flt s id = Err e →
  errors_Is e ErrNotFound = true ↔ flt = Some NotFound ∨ (flt = None ∧ data s !! id = None).
Proof.
  unfold GetItem, doc_Get, get_doc. simpl.
  destruct flt as [c|].
  - simpl. case_decide as Hc.
    + intros [= <-]. split; [left; by subst|reflexivity].
    + intros [= <-]. split; [discriminate|]. intros [[= ->]|[? _]]; done.
  - destruct (data s !! id) as [d|]; simpl.
    + destruct (DataTo d) as [i|e0] eqn:Hd; [discriminate|].
      unfold DataTo in Hd.
      assert (e0 = errDecode) as -> by (repeat case_match; congruence).
      intros [= <-]. split; [discriminate|]. intros [|[_ ?]]; discriminate.
    + intros [= <-]. split; [auto|reflexivity].
Qed.

(** X13. [GET /items/{id}] on a response nothing was written to: with the
    store answering, the status is 404 exactly when the store does not
    hold the identifier, and the body of the 404 is the identifier and
    "not found"; for a stored record the status is 200, the content type
    JSON and the body the encoding of the record; a lookup that fails, a
    document that does not decode and an encoding that fails give 500. *)
Theorem handle_get_status tx s id w :
  wrote w = None →
  (∀ enc, status_sent (handle_get tx None enc s id w) = StatusNotFound ↔ data s !! id = None) ∧
  (data s !! id = None →
   body (handle_get tx None None s id w) = body w ++ id ++ ": not found" ++ newline) ∧
  (∀ i, data s !! id = Some (encode i) →
        status_sent (handle_get tx None None s id w) = StatusOK ∧
        body (handle_get tx None None s id w) = body w ++ json_item tx i ∧
        headers_sent (handle_get tx None None s id w) !! "Content-Type"
        = Some "application/json") ∧
  (∀ c enc, c ≠ NotFound →
            status_sent (handle_get tx (Some c) enc s id w) = StatusInternalServerError).
Proof.
  intros Hw. split; [|split; [|split]].
  - intros enc. unfold handle_get.
    destruct (GetItem None s id) as [i|e] eqn:Hg.
    + rewrite write_json_status by assumption.
      apply GetItem_Ok_inv in Hg as (_ & d & Hd & _). rewrite Hd.
      split; [destruct enc; discriminate|discriminate].
    + destruct (write_db_error_status tx e w Hw) as [-> _].
      pose proof (GetItem_err_NotFound _ _ _ _ Hg) as Hiff.
      destruct (errors_Is e ErrNotFound).
      * split; [intros _|reflexivity]. destruct Hiff as [[?|[_ ?]] _]; done.
      * split; [discriminate|]. intros Habs.
        destruct Hiff as [_ Hiff]. specialize (Hiff (or_intror (conj eq_refl Habs))).
        discriminate.
  - intros Habs.
    assert (GetItem None s id = Err (ErrorWrap (id ++ ": ") ErrNotFound)) as Hg.
    { unfold GetItem, doc_Get, get_doc. simpl. by rewrite Habs. }
    unfold handle_get. rewrite Hg.
    destruct (write_db_error_status tx (ErrorWrap (id ++ ": ") ErrNotFound) w Hw) as [_ ->].
    simpl Error. by rewrite !string_app_assoc.
  - intros i Hd. unfold handle_get. rewrite (GetItem_stored s id i Hd).
    destruct (write_json_fresh tx (json_item tx i) w Hw) as (-> & -> & ->).
    split; [reflexivity|]. split; [reflexivity|]. apply lookup_insert_eq.
  - intros c enc Hc.
    assert (GetItem (Some c) s id = Err (ErrorWrap ("item " ++ id ++ ": ") (StatusErr c))) as Hg.
    { unfold GetItem, doc_Get. simpl. by rewrite decide_False. }
    unfold handle_get. rewrite Hg.
    by destruct (write_db_error_status tx (ErrorWrap ("item " ++ id ++ ": ") (StatusErr c)) w Hw)
      as [-> _].
Qed.

Lemma handle_get_status_witness :
  (∀ enc, status_sent (handle_get sample_texts None enc seeded_spoon "u1" new_writer)
          = StatusNotFound ↔ data seeded_spoon !! "u1" = None) ∧
  (data seeded_spoon !! "u1" = None →
   body (handle_get sample_texts None None seeded_spoon "u1" new_writer)
   = body new_writer ++ "u1" ++ ": not found" ++ newline) ∧
  (∀ i, data seeded_spoon !! "u1" = Some (encode i) →
        status_sent (handle_get sample_texts None None seeded_spoon "u1" new_writer) = StatusOK ∧
        body (handle_get sample_texts None None seeded_spoon "u1" new_writer)
        = body new_writer ++ json_item sample_texts i ∧
        headers_sent (handle_get sample_texts None None seeded_spoon "u1" new_writer)
          !! "Content-Type" = Some "application/json") ∧
  (∀ c enc, c ≠ NotFound →
            status_sent (handle_get sample_texts (Some c) enc seeded_spoon "u1" new_writer)
            = StatusInternalServerError).
Proof. apply (handle_get_status sample_texts seeded_spoon "u1" new_writer). reflexivity. Defined.

(** X14. [PUT /items/{id}] on a response nothing was written to.  A body
    that does not decode or has no name gives 400 and the store is not
    touched.  With a name and the store answering: for an identifier the
    store does not hold the status is 404 and nothing is created; for one
    it holds the status is 200, nothing is written to the response, and
    the stored record is the body's record under the identifier of the
    path, whatever identifier the body carried; no other document
    changes. *)
Theorem handle_put_status tx s id w :
  wrote w = None →
  (∀ fget fset,
     handle_put tx None fget fset s id w
     = (s, http_Error "Invalid input" StatusBadRequest w) ∧
     status_sent (http_Error "Invalid input" StatusBadRequest w) = StatusBadRequest) ∧
  (∀ item fget fset, Name item = EmptyString →
     handle_put tx (Some item) fget fset s id w
     = (s, http_Error "Invalid input" StatusBadRequest w)) ∧
  (∀ item, Name item ≠ EmptyString → data s !! id = None →
     (handle_put tx (Some item) None None s id w).1 = s ∧
     status_sent (handle_put tx (Some item) None None s id w).2 = StatusNotFound) ∧
  (∀ item, Name item ≠ EmptyString → is_Some (data s !! id) →
     (handle_put tx (Some item) None None s id w).2 = w ∧
     status_sent (handle_put tx (Some item) None None s id w).2 = StatusOK ∧
     GetItem None (handle_put tx (Some item) None None s id w).1 id
     = Ok {| ID := id; Name := Name item; Sku := Sku item |} ∧
     ∀ id', id' ≠ id →
            data (handle_put tx (Some item) None None s id w).1 !! id' = data s !! id').
Proof.
  intros Hw. split; [|split; [|split]].
  - intros fget fset. split; [reflexivity|].
    by destruct (http_Error_fresh "Invalid input" StatusBadRequest w Hw) as [-> _].
  - intros item fget fset Hname. unfold handle_put. by rewrite decide_True.
  - intros item Hname Habs. unfold handle_put. rewrite decide_False by assumption.
    unfold UpdateItem, doc_Get, get_doc. simpl. rewrite Habs. simpl.
    split; [reflexivity|].
    by destruct (write_db_error_status tx (ErrorWrap (id ++ ": ") ErrNotFound) w Hw) as [-> _].
  - intros item Hname [d Hd]. unfold handle_put. rewrite decide_False by assumption.
    unfold UpdateItem, doc_Get, doc_Set, get_doc, put_doc. simpl. rewrite Hd. simpl.
    split; [reflexivity|]. split; [unfold status_sent; by rewrite Hw|]. split.
    + apply GetItem_stored. simpl. apply lookup_insert_eq.
    + intros id' Hne. by apply lookup_insert_ne.
Qed.

Lemma handle_put_status_witness :
  (handle_put sample_texts (Some spork_a2) None None seeded_spoon "a2" new_writer).1
    = seeded_spoon ∧
  status_sent (handle_put sample_texts (Some spork_a2) None None seeded_spoon "a2" new_writer).2
    = StatusNotFound ∧
  (handle_put sample_texts (Some spork_a2) None None seeded_spoon "u1" new_writer).2
    = new_writer ∧
  GetItem None (handle_put sample_texts (Some spork_a2) None None seeded_spoon "u1" new_writer).1
          "u1"
    = Ok {| ID := "u1"; Name := "spork"; Sku := 1001 |}.
Proof.
  destruct (handle_put_status sample_texts seeded_spoon "a2" new_writer eq_refl)
    as (_ & _ & Habsent & _).
  destruct (handle_put_status sample_texts seeded_spoon "u1" new_writer eq_refl)
    as (_ & _ & _ & Hheld).
  destruct (Habsent spork_a2) as [H1 H2]; [discriminate|reflexivity|].
  destruct (Hheld spork_a2) as (H3 & _ & H4 & _);
    [discriminate|eexists; vm_compute; reflexivity|].
  auto.
Defined.

(** The tail of [app.add] on a response nothing was sent on, and on one
    whose status is out. *)
Lemma add_tail_fresh k1 v1 k2 v2 code text w :
  wrote w = None →
  status_sent (Encode None text (WriteHeader code (Header_Set k2 v2 (Header_Set k1 v1 w)))).1
  = code ∧
  headers_sent (Encode None text (WriteHeader code (Header_Set k2 v2 (Header_Set k1 v1 w)))).1
  = <[k2 := v2]> (<[k1 := v1]> (header w)) ∧
  body (Encode None text (WriteHeader code (Header_Set k2 v2 (Header_Set k1 v1 w)))).1
  = body w ++ text.
Proof.
  intros Hw. unfold Encode, w_Write, WriteHeader, Header_Set, status_sent, headers_sent.
  simpl. rewrite Hw. simpl. auto.
Qed.

Lemma add_tail_sent k1 v1 k2 v2 code text w c h :
  wrote w = Some (c, h) →
  status_sent (Encode None text (WriteHeader code (Header_Set k2 v2 (Header_Set k1 v1 w)))).1
  = c ∧
  headers_sent (Encode None text (WriteHeader code (Header_Set k2 v2 (Header_Set k1 v1 w)))).1
  = h ∧
  body (Encode None text (WriteHeader code (Header_Set k2 v2 (Header_Set k1 v1 w)))).1
  = body w ++ text.
Proof.
  intros Hw. unfold Encode, w_Write, WriteHeader, Header_Set, status_sent, headers_sent.
  simpl. rewrite Hw. simpl. rewrite ?Hw. auto.
Qed.

Lemma http_Error_wrote text code w :
  wrote w = None →
  ∃ h, wrote (http_Error text code w) = Some (code, h) ∧
       h = headers_sent (http_Error text code w).
Proof.
  intros Hw. unfold http_Error, Fprintln, w_Write, WriteHeader, Header_Set, Header_Del,
    headers_sent. simpl. rewrite Hw. simpl. eexists. split; reflexivity.
Qed.

(** X15. [POST /items] on a response nothing was written to.  A body that
    does not decode or has no name gives 400, a body that carries an
    identifier gives 409; in both cases no identifier is drawn and the
    store is not touched.  When [AddItem] returns an identifier the status
    is 201, the [Location] header names the record under the request's
    URL, and the body is the encoding of the record as stored.  When
    [AddItem] returns an error the handler does not return: the status is
    500 and the [Location] header is not sent, but the body carries, after
    the error text, the encoding of the record as the failed [AddItem]
    left it; the store is as it was. *)
Theorem handle_add_status tx url host cycles s w :
  wrote w = None →
  (∀ enc, handle_add tx None url host cycles enc s w
          = Some (s, http_Error "Invalid input" StatusBadRequest w)) ∧
  (∀ item enc, Name item = EmptyString →
     handle_add tx (Some item) url host cycles enc s w
     = Some (s, http_Error "Invalid input" StatusBadRequest w)) ∧
  (∀ item enc, Name item ≠ EmptyString → ID item ≠ EmptyString →
     handle_add tx (Some item) url host cycles enc s w
     = Some (s, http_Error "Key assigned" StatusConflict w) ∧
     status_sent (http_Error "Key assigned" StatusConflict w) = StatusConflict) ∧
  (∀ item item' s' id,
     Name item ≠ EmptyString → ID item = EmptyString →
     AddItem cycles s item = Some (item', s', (id, None)) →
     ∃ w', handle_add tx (Some item) url host cycles None s w = Some (s', w') ∧
           status_sent w' = StatusCreated ∧
           headers_sent w' !! "Location" = Some (location url host id) ∧
           headers_sent w' !! "Content-Type" = Some "application/json" ∧
           body w' = body w ++ json_item tx item' ∧
           GetItem None s' id = Ok item') ∧
  (∀ item item' s' id e,
     Name item ≠ EmptyString → ID item = EmptyString →
     AddItem cycles s item = Some (item', s', (id, Some e)) →
     ∃ w', handle_add tx (Some item) url host cycles None s w = Some (s, w') ∧
           status_sent w' = StatusInternalServerError ∧
           headers_sent w' !! "Location" = header w !! "Location" ∧
           body w' = body w ++ Error tx e ++ newline ++ json_item tx item').
Proof.
  intros Hw. split; [|split; [|split; [|split]]].
  - reflexivity.
  - intros item enc Hname. unfold handle_add. by rewrite decide_True.
  - intros item enc Hname Hid. unfold handle_add.
    rewrite decide_False by assumption. rewrite decide_True by assumption.
    split; [reflexivity|].
    by destruct (http_Error_fresh "Key assigned" StatusConflict w Hw) as [-> _].
  - intros item item' s' id Hname Hid Ha. unfold handle_add.
    rewrite decide_False by assumption. rewrite decide_False by (intros Hne; by apply Hne).
    rewrite Ha. eexists. split; [reflexivity|].
    destruct (add_tail_fresh "Content-Type" "application/json" "Location"
                (location url host id) StatusCreated (json_item tx item') w Hw)
      as (-> & -> & ->).
    split; [reflexivity|]. split; [apply lookup_insert_eq|].
    split; [rewrite lookup_insert_ne by discriminate; apply lookup_insert_eq|].
    split; [reflexivity|].
    apply AddItem_nil in Ha as (n & d & _ & _ & _ & _ & ->).
    apply GetItem_stored. apply lookup_insert_eq.
  - intros item item' s' id e Hname Hid Ha. unfold handle_add.
    rewrite decide_False by assumption. rewrite decide_False by (intros Hne; by apply Hne).
    rewrite Ha. pose proof (AddItem_err _ _ _ _ _ _ _ Ha) as (-> & _).
    eexists. split; [reflexivity|].
    destruct (http_Error_wrote (Error tx e) StatusInternalServerError w Hw) as (h & Hsent & Hh).
    destruct (http_Error_fresh (Error tx e) StatusInternalServerError w Hw)
      as (_ & Hbody & Hheaders).
    destruct (add_tail_sent "Content-Type" "application/json" "Location"
                (location url host id) StatusCreated (json_item tx item')
                (http_Error (Error tx e) StatusInternalServerError w)
                StatusInternalServerError h Hsent) as (-> & -> & ->).
    split; [reflexivity|]. split.
    + rewrite Hh, Hheaders.
      rewrite !lookup_insert_ne by discriminate. by rewrite lookup_delete_ne by discriminate.
    + rewrite Hbody. by rewrite !string_app_assoc.
Qed.

Lemma handle_add_status_witness :
  (∃ w', handle_add sample_texts (Some spork) "/items" "localhost:8080"
                    [turn "u1"; turn "a2"] None seeded_spoon new_writer
         = Some (seeded_spoon_spork, w') ∧
         status_sent w' = StatusCreated ∧
         headers_sent w' !! "Location" = Some (location "/items" "localhost:8080" "a2") ∧
         headers_sent w' !! "Content-Type" = Some "application/json" ∧
         body w' = body new_writer ++ json_item sample_texts spork_a2 ∧
         GetItem None seeded_spoon_spork "a2" = Ok spork_a2) ∧
  (∃ w', handle_add sample_texts (Some spoon) "/items" "localhost:8080"
                    [{| new_uuid := "u1"; cycle_env := commit_fails |}] None seeded new_writer
         = Some (seeded, w') ∧
         status_sent w' = StatusInternalServerError ∧
         headers_sent w' !! "Location" = header new_writer !! "Location" ∧
         body w' = body new_writer ++ Error sample_texts (StatusErr Unavailable) ++ newline
                   ++ json_item sample_texts spoon_u1).
Proof.
  split.
  - destruct (handle_add_status sample_texts "/items" "localhost:8080" [turn "u1"; turn "a2"]
                seeded_spoon new_writer eq_refl) as (_ & _ & _ & Hok & _).
    apply (Hok spork spork_a2 seeded_spoon_spork "a2"); [discriminate|reflexivity|].
    vm_compute. reflexivity.
  - destruct (handle_add_status sample_texts "/items" "localhost:8080"
                [{| new_uuid := "u1"; cycle_env := commit_fails |}]
                seeded new_writer eq_refl) as (_ & _ & _ & _ & Hfail).
    apply (Hfail spoon spoon_u1 seeded EmptyString (StatusErr Unavailable));
      [discriminate|reflexivity|].
    vm_compute. reflexivity.
Defined.

(** X16. [DELETE /items/{id}] on a response nothing was written to.  With
    the store answering, the handler writes nothing, so the status is 200
    whether or not the store held the identifier, a second [DELETE] of the
    same identifier does the same and leaves the store as the first left
    it, and a [GET] of the identifier afterwards gives 404.  When the
    delete fails the status is 500 and the store is as it was. *)
Theorem handle_drop_status tx s id w :
  wrote w = None →
  (handle_drop tx None s id w).2 = w ∧ status_sent w = StatusOK ∧
  handle_drop tx None (handle_drop tx None s id w).1 id w
  = ((handle_drop tx None s id w).1, w) ∧
  (∀ enc, status_sent (handle_get tx None enc (handle_drop tx None s id w).1 id w)
          = StatusNotFound) ∧
  (∀ id', id' ≠ id →
          handle_get tx None None (handle_drop tx None s id w).1 id' w
          = handle_get tx None None s id' w) ∧
  (∀ c, (handle_drop tx (Some c) s id w).1 = s ∧
        status_sent (handle_drop tx (Some c) s id w).2 = StatusInternalServerError).
Proof.
  intros Hw.
  assert (handle_drop tx None s id w
          = ({| data := delete id (data s); util := util s |}, w)) as Hdrop by reflexivity.
  rewrite Hdrop. cbn [fst snd].
  split; [reflexivity|]. split; [unfold status_sent; by rewrite Hw|].
  split; [unfold handle_drop, DeleteItem, doc_Delete; cbn [data util];
          by rewrite delete_delete_eq|].
  split; [|split].
  - intros enc.
    assert (GetItem None {| data := delete id (data s); util := util s |} id
            = Err (ErrorWrap (id ++ ": ") ErrNotFound)) as Hg.
    { unfold GetItem, doc_Get, get_doc. cbn [coll fst snd data]. by rewrite lookup_delete_eq. }
    unfold handle_get. rewrite Hg.
    by destruct (write_db_error_status tx (ErrorWrap (id ++ ": ") ErrNotFound) w Hw) as [-> _].
  - intros id' Hne. unfold handle_get, GetItem, doc_Get, get_doc. cbn [coll fst snd data].
    by rewrite lookup_delete_ne.
  - intros c.
    assert (handle_drop tx (Some c) s id w
            = (s, http_Error (Error tx (StatusErr c)) StatusInternalServerError w)) as ->
      by reflexivity.
    split; [reflexivity|]. cbn [snd].
    by destruct (http_Error_fresh (Error tx (StatusErr c)) StatusInternalServerError w Hw)
      as [-> _].
Qed.

Lemma handle_drop_status_witness :
  (handle_drop sample_texts None seeded_spoon "u1" new_writer).2 = new_writer ∧
  status_sent new_writer = StatusOK ∧
  handle_drop sample_texts None (handle_drop sample_texts None seeded_spoon "u1" new_writer).1
              "u1" new_writer
  = ((handle_drop sample_texts None seeded_spoon "u1" new_writer).1, new_writer) ∧
  (∀ enc, status_sent (handle_get sample_texts None enc
                         (handle_drop sample_texts None seeded_spoon "u1" new_writer).1
                         "u1" new_writer)
          = StatusNotFound) ∧
  (∀ id', id' ≠ "u1" →
          handle_get sample_texts None None
                     (handle_drop sample_texts None seeded_spoon "u1" new_writer).1 id' new_writer
          = handle_get sample_texts None None seeded_spoon id' new_writer) ∧
  (∀ c, (handle_drop sample_texts (Some c) seeded_spoon "u1" new_writer).1 = seeded_spoon ∧
        status_sent (handle_drop sample_texts (Some c) seeded_spoon "u1" new_writer).2
        = StatusInternalServerError).
Proof. apply (handle_drop_status sample_texts seeded_spoon "u1" new_writer). reflexivity. Defined.



(** X18. [GET /skus/{sku}] on a response nothing was written to.  A path
    variable that is not a number gives 400 with the parser's message and
    the store is not asked.  With the store answering, a number no stored
    document carries gives 404; and on a store of well formed records with
    pairwise distinct sequence numbers, the sequence number of a stored
    record gives 200 and the encoding of that record. *)
Theorem handle_getSKU_status tx s w :
  wrote w = None →
  (∀ e flt enc,
     status_sent (handle_getSKU tx (Err e) flt enc s w) = StatusBadRequest ∧
     body (handle_getSKU tx (Err e) flt enc s w) = body w ++ Error tx e ++ newline) ∧
  (∀ sku enc, (∀ id d, data s !! id = Some d → d !! "sku" ≠ Some (VInt sku)) →
     status_sent (handle_getSKU tx (Ok sku) None enc s w) = StatusNotFound) ∧
  (∀ id i, records_ok s → sku_unique s → data s !! id = Some (encode i) →
     status_sent (handle_getSKU tx (Ok (Sku i)) None None s w) = StatusOK ∧
     body (handle_getSKU tx (Ok (Sku i)) None None s w) = body w ++ json_item tx i).
Proof.
  intros Hw. split; [|split].
  - intros e flt enc. unfold handle_getSKU.
    by destruct (http_Error_fresh (Error tx e) StatusBadRequest w Hw) as (-> & -> & _).
  - intros sku enc Hnone. unfold handle_getSKU, GetItemBySKU, query_sku.
    destruct (filter _ (docs_by_id s)) as [|[id d] docs] eqn:Hf.
    + by destruct (write_db_error_status tx
                     (ErrorWrap ("sku " ++ Itoa sku ++ ": ") ErrNotFound) w Hw) as [-> _].
    + assert ((id, d) ∈ filter (λ p : string * Doc, p.2 !! "sku" = Some (VInt sku))
                               (docs_by_id s)) as Hin.
      { rewrite Hf. apply elem_of_cons. by left. }
      apply list_elem_of_filter in Hin as [Hsku Hin]. apply elem_of_docs_by_id in Hin.
      by destruct (Hnone id d Hin).
  - intros id i Hok Huniq Hd. unfold handle_getSKU, GetItemBySKU.
    destruct (query_sku_head s id i Hok Huniq Hd) as [docs ->]. simpl.
    rewrite DataTo_encode.
    by destruct (write_json_fresh tx (json_item tx i) w Hw) as (-> & -> & _).
Qed.

Lemma handle_getSKU_status_witness :
  status_sent (handle_getSKU sample_texts (Ok 999999) None None empty_store new_writer)
    = StatusNotFound ∧
  status_sent (handle_getSKU sample_texts (Ok (Sku spork_a2)) None None seeded_spoon_spork
                 new_writer) = StatusOK ∧
  body (handle_getSKU sample_texts (Ok (Sku spork_a2)) None None seeded_spoon_spork new_writer)
    = body new_writer ++ json_item sample_texts spork_a2.
Proof.
  destruct (handle_getSKU_status sample_texts empty_store new_writer eq_refl)
    as (_ & Hnone & _).
  destruct (handle_getSKU_status sample_texts seeded_spoon_spork new_writer eq_refl)
    as (_ & _ & Hfound).
  destruct store_inv_spoon_spork as (_ & _ & Hok & Huniq & _).
  split.
  - apply Hnone. intros id d Hd. simpl in Hd. by rewrite lookup_empty in Hd.
  - apply (Hfound "a2" spork_a2 Hok Huniq). vm_compute. reflexivity.
Defined.

(** ** The in-memory double: facts *)

Lemma Mock_AddItem_loop_inv uuids : ∀ h d n f i h' m' id r,
  Mock.AddItem_loop uuids h d n f i = Some (h', m', (id, r)) →
  r = None ∧ d !! id = None ∧
  Mock.data m' = Some (<[id := i]> d) ∧ Mock.next m' = int_add n 1 ∧ Mock.fail m' = f ∧
  h' !! i = Some {| ID := id; Name := Name (h !!! i); Sku := n |} ∧
  (∀ l, l ≠ i → h' !! l = h !! l).
Proof.
  induction uuids as [|id0 uuids IH]; intros h d n f i h' m' id r; simpl; [discriminate|].
  destruct (d !! id0) as [l0|] eqn:Hd.
  - intros Hloop. apply IH in Hloop as (-> & Hfree & Hdata & Hnext & Hfail & Hi & Hframe).
    rewrite lookup_total_insert_eq in Hi. simpl in Hi.
    repeat split; try assumption.
    intros l Hl. rewrite (Hframe l Hl). by apply lookup_insert_ne.
  - intros [= <- <- <- <-]. simpl.
    rewrite !lookup_total_insert_eq, lookup_insert_eq. simpl.
    repeat split; try assumption.
    intros l Hl. by rewrite !lookup_insert_ne.
Qed.

(** X19. An [AddItem] of the double that returns an identifier has drawn
    an identifier the map did not hold, written it and the double's [next]
    (1000 on a double whose map was nil) into the caller's record, left
    the name and every other record on the heap alone, advanced [next] by
    one, and keeps the caller's pointer itself: [GetItem] of the
    identifier returns that pointer.  On a double that has a map, a record
    that comes with an identifier is refused with [errInvalid] and nothing
    changes; on a double whose map is nil it is not. *)
Theorem Mock_AddItem_assigns_next :
  (∀ uuids h m i h' m' id,
     Mock.AddItem uuids h m i = Some (h', m', (id, None)) →
     default ∅ (Mock.data m) !! id = None ∧
     Mock.data m' = Some (<[id := i]> (default ∅ (Mock.data m))) ∧
     Mock.next m' = int_add (match Mock.data m with Some _ => Mock.next m | None => 1000 end) 1 ∧
     h' !! i = Some {| ID := id; Name := Name (h !!! i);
                       Sku := match Mock.data m with Some _ => Mock.next m | None => 1000 end |} ∧
     (∀ l, l ≠ i → h' !! l = h !! l) ∧
     Mock.GetItem m' id = Ok i) ∧
  (∀ uuids h m d i,
     Mock.fail m = false → Mock.data m = Some d → ID (h !!! i) ≠ EmptyString →
     Mock.AddItem uuids h m i = Some (h, m, (EmptyString, Some Mock.errInvalid))) ∧
  (∀ uuids h m i,
     Mock.fail m = false → Mock.data m = None →
     Mock.AddItem uuids h m i = Mock.AddItem_loop uuids h ∅ 1000 false i).
Proof.
  split; [|split].
  - intros uuids h m i h' m' id. unfold Mock.AddItem.
    destruct (Mock.fail m) eqn:Hf; [discriminate|].
    destruct (Mock.data m) as [d|] eqn:Hd; simpl.
    + case_decide; [discriminate|]. intros Hloop.
      apply Mock_AddItem_loop_inv in Hloop as (_ & Hfree & Hdata & Hnext & Hfail & Hi & Hframe).
      repeat split; try assumption.
      unfold Mock.GetItem. rewrite Hfail, Hdata. by rewrite lookup_insert_eq.
    + intros Hloop.
      apply Mock_AddItem_loop_inv in Hloop as (_ & Hfree & Hdata & Hnext & Hfail & Hi & Hframe).
      repeat split; try assumption.
      unfold Mock.GetItem. rewrite Hfail, Hdata. by rewrite lookup_insert_eq.
  - intros uuids h m d i Hf Hd Hid. unfold Mock.AddItem. rewrite Hf, Hd.
    by rewrite decide_True.
  - intros uuids h m i Hf Hd. unfold Mock.AddItem. by rewrite Hf, Hd.
Qed.

(** X20. [GetItemBySKU] of the double, in whatever order the map is
    visited: a pointer it returns is held by the map and its record
    carries the sequence number; [ErrNotFound] means that no record the
    map holds carries it. *)
Theorem Mock_GetItemBySKU_finds visit h m sku :
  Mock.fail m = false → visit ≡ₚ Mock.entries m →
  match Mock.GetItemBySKU visit h m sku with
  | Ok l => (∃ id, (id, l) ∈ Mock.entries m) ∧ Sku (h !!! l) = sku
  | Err e => e = ErrNotFound ∧ ∀ id l, (id, l) ∈ Mock.entries m → Sku (h !!! l) ≠ sku
  end.
Proof.
  intros Hf Hperm. unfold Mock.GetItemBySKU. rewrite Hf.
  destruct (list_find _ visit) as [[k [id l]]|] eqn:Hfind.
  - apply list_find_Some in Hfind as (Hk & Hsku & _). simpl in *.
    split; [|assumption]. exists id. rewrite <- Hperm.
    by apply list_elem_of_lookup_2 in Hk.
  - split; [reflexivity|]. intros id l Hin. rewrite <- Hperm in Hin.
    apply list_find_None in Hfind. rewrite Forall_forall in Hfind.
    apply (Hfind (id, l) Hin).
Qed.

Lemma Mock_AddItem_assigns_next_witness :
  (default ∅ (Mock.data Mock.zero) !! "u1" = None ∧
   Mock.data mock_spoon = Some (<["u1" := 0%nat]> (default ∅ (Mock.data Mock.zero))) ∧
   Mock.next mock_spoon = int_add 1000 1 ∧
   <[0%nat := spoon_u1]> heap_spoon !! 0%nat
   = Some {| ID := "u1"; Name := Name (heap_spoon !!! 0%nat); Sku := 1000 |} ∧
   (∀ l, l ≠ 0%nat → <[0%nat := spoon_u1]> heap_spoon !! l = heap_spoon !! l) ∧
   Mock.GetItem mock_spoon "u1" = Ok 0%nat) ∧
  Mock.AddItem ["a2"] (<[0%nat := spoon_u1]> heap_spoon) mock_spoon 0%nat
  = Some (<[0%nat := spoon_u1]> heap_spoon, mock_spoon, (EmptyString, Some Mock.errInvalid)).
Proof.
  destruct Mock_AddItem_assigns_next as (Hadd & Hinvalid & _). split.
  - apply (Hadd ["u1"] heap_spoon Mock.zero 0%nat (<[0%nat := spoon_u1]> heap_spoon)
                mock_spoon "u1").
    vm_compute. reflexivity.
  - apply (Hinvalid ["a2"] (<[0%nat := spoon_u1]> heap_spoon) mock_spoon
                    (<["u1" := 0%nat]> ∅) 0%nat); [reflexivity|reflexivity|].
    vm_compute. discriminate.
Defined.

Lemma Mock_GetItemBySKU_finds_witness :
  match Mock.GetItemBySKU [("u1", 0%nat)] (<[0%nat := spoon_u1]> heap_spoon) mock_spoon 1000 with
  | Ok l => (∃ id, (id, l) ∈ Mock.entries mock_spoon) ∧
            Sku ((<[0%nat := spoon_u1]> heap_spoon) !!! l) = 1000
  | Err e => e = ErrNotFound ∧
             ∀ id l, (id, l) ∈ Mock.entries mock_spoon →
                     Sku ((<[0%nat := spoon_u1]> heap_spoon) !!! l) ≠ 1000
  end.
Proof.
  apply (Mock_GetItemBySKU_finds [("u1", 0%nat)] (<[0%nat := spoon_u1]> heap_spoon)
           mock_spoon 1000).
  - reflexivity.
  - vm_compute. reflexivity.
Defined.

(** The loop of [preload] keeps: every pointer of the map is on the heap,
    its record carries the identifier it is held under and a sequence
    number from [lo] to below [next]. *)
Lemma Mock_preload_loop_inv k : ∀ i uuids h d n h' d' n' lo,
  Mock.preload_loop k i uuids h d n = Some (h', d', n') →
  min_int64 ≤ n → n + Z.of_nat k ≤ max_int64 → lo ≤ n →
  (∀ id l, d !! id = Some l → ∃ it, h !! l = Some it ∧ ID it = id ∧ lo ≤ Sku it < n) →
  n' = n + Z.of_nat k ∧
  (∀ id l, d' !! id = Some l → ∃ it, h' !! l = Some it ∧ ID it = id ∧ lo ≤ Sku it < n') ∧
  (∀ l, l ∈ dom h → h' !! l = h !! l) ∧
  (size d' ≤ size d + k)%nat.
Proof.
  induction k as [|k IH]; intros i uuids h d n h' d' n' lo; cbn [Mock.preload_loop].
  - intros [= <- <- <-] _ _ _ Hinv. rewrite Z.add_0_r, Nat.add_0_r. auto.
  - destruct uuids as [|id uuids]; [discriminate|].
    intros Hloop Hmin Hmax Hlo Hinv.
    rewrite int_add_succ in Hloop by lia.
    pose proof (is_fresh (dom h)) as Hfresh.
    assert (∀ id' l, <[id := fresh (dom h)]> d !! id' = Some l →
              ∃ it, <[fresh (dom h) := {| ID := id; Name := "item-" ++ Itoa i; Sku := n |}]> h
                      !! l = Some it ∧ ID it = id' ∧ lo ≤ Sku it < n + 1) as Hinv1.
    { intros id' l. rewrite lookup_insert. case_decide as Hid.
      - intros [= <-]. eexists. rewrite lookup_insert_eq. split; [reflexivity|].
        cbn [ID Sku]. split; [by subst|lia].
      - intros Hd. destruct (Hinv id' l Hd) as (it & Hit & Hidit & Hsku).
        exists it. split; [|split; [assumption|lia]].
        rewrite lookup_insert_ne; [assumption|].
        intros <-. apply Hfresh. apply elem_of_dom. by exists it. }
    destruct (IH _ _ _ _ _ _ _ _ lo Hloop ltac:(lia) ltac:(lia) ltac:(lia) Hinv1)
      as (-> & Hinv' & Hframe & Hsize).
    split; [lia|]. split; [assumption|]. split.
    + intros l Hl. rewrite Hframe by (rewrite dom_insert_L; apply elem_of_union; by right).
      apply lookup_insert_ne. intros <-. by apply Hfresh.
    + rewrite map_size_insert in Hsize.
      destruct (d !! id); unfold Datatypes.id in Hsize; lia.
Qed.

Lemma Mock_preload_loop_total k : ∀ i uuids h d n,
  (k ≤ length uuids)%nat → is_Some (Mock.preload_loop k i uuids h d n).
Proof.
  induction k as [|k IH]; intros i uuids h d n Hlen; simpl; [by eexists|].
  destruct uuids as [|id uuids]; simpl in Hlen; [lia|].
  apply IH. lia.
Qed.

(** X21. [preload] on a double whose map is nil, whatever its [fail] flag:
    given nine identifiers it returns; afterwards [next] is 1009, the map
    holds at most nine pointers, each to a record on the heap that carries
    the identifier it is held under and a sequence number from 1000 to
    1008, and the records that were on the heap before are as they
    were. *)
Theorem Mock_preload_loads_nine uuids h m :
  Mock.data m = None →
  ((9 ≤ length uuids)%nat → is_Some (Mock.preload uuids h m)) ∧
  (∀ h' m',
     Mock.preload uuids h m = Some (h', m') →
     Mock.next m' = 1009 ∧ Mock.fail m' = Mock.fail m ∧
     (∃ d', Mock.data m' = Some d' ∧ (size d' ≤ 9)%nat ∧
            ∀ id l, d' !! id = Some l →
                    ∃ it, h' !! l = Some it ∧ ID it = id ∧ 1000 ≤ Sku it ≤ 1008) ∧
     (∀ l, l ∈ dom h → h' !! l = h !! l)).
Proof.
  intros Hnil. unfold Mock.preload. rewrite Hnil. split.
  - intros Hlen.
    destruct (Mock_preload_loop_total 9 1 uuids h ∅ 1000 Hlen) as [[[h' d'] n'] ->].
    by eexists.
  - intros h' m'.
    destruct (Mock.preload_loop 9 1 uuids h ∅ 1000) as [[[h1 d1] n1]|] eqn:Hloop;
      [|discriminate].
    intros [= <- <-]. simpl.
    apply (Mock_preload_loop_inv 9 1 uuids h ∅ 1000 h1 d1 n1 1000) in Hloop
      as (-> & Hinv & Hframe & Hsize).
    + split; [reflexivity|]. split; [reflexivity|]. split; [|assumption].
      exists d1. split; [reflexivity|]. split; [by rewrite map_size_empty in Hsize|].
      intros id l Hd. destruct (Hinv id l Hd) as (it & Hit & Hid & Hsku).
      exists it. split; [assumption|]. split; [assumption|]. lia.
    + unfold min_int64. lia.
    + unfold max_int64. simpl. lia.
    + lia.
    + intros id l Hd. by rewrite lookup_empty in Hd.
Qed.

Lemma Mock_preload_loads_nine_witness :
  is_Some (Mock.preload nine_uuids heap_spoon Mock.zero) ∧
  ∀ h' m',
    Mock.preload nine_uuids heap_spoon Mock.zero = Some (h', m') →
    Mock.next m' = 1009 ∧ Mock.fail m' = Mock.fail Mock.zero ∧
    (∃ d', Mock.data m' = Some d' ∧ (size d' ≤ 9)%nat ∧
           ∀ id l, d' !! id = Some l →
                   ∃ it, h' !! l = Some it ∧ ID it = id ∧ 1000 ≤ Sku it ≤ 1008) ∧
    (∀ l, l ∈ dom heap_spoon → h' !! l = heap_spoon !! l).
Proof.
  destruct (Mock_preload_loads_nine nine_uuids heap_spoon Mock.zero eq_refl) as [Hsome Hinv].
  split; [apply Hsome; simpl; lia|exact Hinv].
Defined.

(** X22. Where the double and the client part: for an identifier neither
    holds, [UpdateItem] of the double (on a double that has a map) returns
    [nil] and binds the identifier to the caller's pointer, so that
    [GetItem] then returns it, while [UpdateItem] of the client returns an
    error that wraps [ErrNotFound] and stores nothing.  For [GetItem] of
    such an identifier both return an error for which
    [errors.Is(err, ErrNotFound)] holds. *)
Theorem Mock_UpdateItem_inserts_where_the_client_refuses h m d i s :
  Mock.fail m = false → Mock.data m = Some d →
  d !! ID (h !!! i) = None → data s !! ID (h !!! i) = None →
  (Mock.UpdateItem h m i).2 = None ∧
  Mock.GetItem (Mock.UpdateItem h m i).1 (ID (h !!! i)) = Ok i ∧
  (∃ e, UpdateItem None None s (h !!! i) = (s, Some e) ∧ errors_Is e ErrNotFound = true) ∧
  (∃ e, Mock.GetItem m (ID (h !!! i)) = Err e ∧ errors_Is e ErrNotFound = true) ∧
  (∃ e, GetItem None s (ID (h !!! i)) = Err e ∧ errors_Is e ErrNotFound = true).
Proof.
  intros Hf Hd Hmock Hclient.
  assert (Mock.UpdateItem h m i
          = ({| Mock.data := Some (<[ID (h !!! i) := i]> d); Mock.next := Mock.next m;
                Mock.fail := Mock.fail m |}, None)) as Hu.
  { unfold Mock.UpdateItem. by rewrite Hf, Hd. }
  rewrite Hu. cbn [fst snd].
  split; [reflexivity|]. split; [|split; [|split]].
  - unfold Mock.GetItem. cbn [Mock.fail Mock.data]. rewrite Hf.
    by rewrite lookup_insert_eq.
  - unfold UpdateItem, doc_Get, get_doc. cbn [coll fst snd]. rewrite Hclient.
    rewrite decide_True by reflexivity. eexists. split; reflexivity.
  - unfold Mock.GetItem. rewrite Hf, Hd, Hmock. eexists. split; reflexivity.
  - unfold GetItem, doc_Get, get_doc. cbn [coll fst snd]. rewrite Hclient.
    rewrite decide_True by reflexivity. eexists. split; reflexivity.
Qed.

Lemma Mock_UpdateItem_inserts_where_the_client_refuses_witness :
  (Mock.UpdateItem (<[1%nat := spork_a2]> heap_spoon) mock_spoon 1%nat).2 = None ∧
  Mock.GetItem (Mock.UpdateItem (<[1%nat := spork_a2]> heap_spoon) mock_spoon 1%nat).1
               (ID ((<[1%nat := spork_a2]> heap_spoon) !!! 1%nat)) = Ok 1%nat ∧
  (∃ e, UpdateItem None None seeded_spoon ((<[1%nat := spork_a2]> heap_spoon) !!! 1%nat)
        = (seeded_spoon, Some e) ∧ errors_Is e ErrNotFound = true) ∧
  (∃ e, Mock.GetItem mock_spoon (ID ((<[1%nat := spork_a2]> heap_spoon) !!! 1%nat)) = Err e ∧
        errors_Is e ErrNotFound = true) ∧
  (∃ e, GetItem None seeded_spoon (ID ((<[1%nat := spork_a2]> heap_spoon) !!! 1%nat)) = Err e ∧
        errors_Is e ErrNotFound = true).
Proof.
  apply (Mock_UpdateItem_inserts_where_the_client_refuses
           (<[1%nat := spork_a2]> heap_spoon) mock_spoon (<["u1" := 0%nat]> ∅) 1%nat seeded_spoon);
    vm_compute; reflexivity.
Defined.
